(** * Layered configuration core: credential adapter and config merge/set

    A shallow embedding of [packages/security/src/DefaultCredentialManager.ts]
    (the CredentialAdapter of the specification) together with a model of the
    [Config] merge and [set] operations, and the properties proved about them.

    Conventions.
    - A JavaScript string is a [string]; one character of the model stands for
      one UTF-16 code unit, so [String.length] is the [length] property.
    - [null] and [undefined] are [None]; an optional boolean argument is an
      [option bool] whose absence is falsy.
    - The keytar module is an ideal secret store: a finite map from
      [(service, account)] to the stored password.
    - Every [await] is sequential, so the asynchronous methods are state
      passing functions over the vault.
    - Every [while] loop takes a fuel argument and running out of fuel is the
      outcome [Diverge]; for the loops that always finish, the fuel that
      suffices is given with the results. *)

From stdpp Require Import gmap strings list fin_maps pretty.
From Stdlib Require Import Ascii Lia ZArith.

(** ** JavaScript string primitives used by the sources *)
Module JsString.

(** The character written ['\0'] in the source. *)
Definition NUL : ascii := Ascii.zero.

Definition LF : ascii := Ascii.ascii_of_nat 10.

(** [s.slice(0, n)] for [0 <= n]. *)
Fixpoint slice_to (n : nat) (s : string) : string :=
  match n, s with
  | S n', String c s' => String c (slice_to n' s')
  | _, _ => EmptyString
  end.

(** [s.slice(n)] for [0 <= n]. *)
Fixpoint slice_from (n : nat) (s : string) : string :=
  match n, s with
  | S n', String _ s' => slice_from n' s'
  | _, _ => s
  end.

(** [s.slice(0, -n)] for [0 < n]. *)
Definition drop_last (n : nat) (s : string) : string :=
  slice_to (String.length s - n) s.

(** [s.startsWith(p)]. *)
Fixpoint startsWith (s p : string) : bool :=
  match p, s with
  | EmptyString, _ => true
  | String a p', String b s' => if Ascii.eqb a b then startsWith s' p' else false
  | String _ _, EmptyString => false
  end.

(** [s.endsWith(suffix)]. *)
Definition endsWith (s suffix : string) : bool :=
  (String.length suffix <=? String.length s) &&
  String.eqb (slice_from (String.length s - String.length suffix) s) suffix.

(** [s.replace(pat, rep)] with a string pattern: only the first occurrence
    of [pat] is replaced. *)
Fixpoint replace (s pat rep : string) : string :=
  if startsWith s pat then rep +:+ slice_from (String.length pat) s
  else match s with
       | EmptyString => EmptyString
       | String c s' => String c (replace s' pat rep)
       end.

(** [s.replace(/\0$/, "")]: drop one trailing NUL character, if any. *)
Definition strip_trailing_nul (s : string) : string :=
  if endsWith s (String NUL EmptyString) then drop_last 1 s else s.

(** The last character of a string. *)
Fixpoint last_char (s : string) : option ascii :=
  match s with
  | EmptyString => None
  | String c EmptyString => Some c
  | String _ s' => last_char s'
  end.

End JsString.

(** ** The secret store behind keytar *)
Module Keytar.

(** Passwords indexed by [(service, account)]. *)
Abbreviation Vault := (gmap (string * string) string).

Definition getPassword (service account : string) (v : Vault) : option string :=
  v !! (service, account).

Definition setPassword (service account password : string) (v : Vault) : Vault :=
  <[(service, account) := password]> v.

(** [deletePassword] answers whether an entry was removed. *)
Definition deletePassword (service account : string) (v : Vault) : bool * Vault :=
  (bool_decide (is_Some (v !! (service, account))), delete (service, account) v).

End Keytar.

(** ** DefaultCredentialManager *)
Module DefaultCredentialManager.
Import JsString.
Export Keytar.

Record ImperativeError := {
  msg : string;
  causeErrors : option string;
  additionalDetails : option string;
  suppressReport : bool
}.

(** Outcome of a method run on a vault: normal return with the new vault,
    a thrown error with the vault as it was left, or a loop that did not
    finish within the fuel. *)
Inductive Res (A : Type) : Type :=
| Ret (a : A) (v : Vault)
| Throw (e : ImperativeError) (v : Vault)
| Diverge.
Arguments Ret {A} a v.
Arguments Throw {A} e v.
Arguments Diverge {A}.

Definition M (A : Type) : Type := Vault → Res A.

#[global] Instance M_ret : MRet M := λ A a v, Ret a v.
#[global] Instance M_bind : MBind M := λ A B f m v,
  match m v with
  | Ret a v' => f a v'
  | Throw e v' => Throw e v'
  | Diverge => Diverge
  end.

Definition throw {A} (e : ImperativeError) : M A := λ v, Throw e v.
Definition diverge {A} : M A := λ _, Diverge.

(** The three keytar calls as vault actions. *)
Definition kt_getPassword (service account : string) : M (option string) :=
  λ v, Ret (getPassword service account v) v.
Definition kt_setPassword (service account password : string) : M unit :=
  λ v, Ret tt (setPassword service account password v).
Definition kt_deletePassword (service account : string) : M bool :=
  λ v, Ret (deletePassword service account v).1 (deletePassword service account v).2.

(** [x == null] *)
Definition is_null {A} (x : option A) : bool :=
match x with
| None => true
| Some _ => false
end.

Definition SVC_NAME : string := "Zowe".
Definition WIN32_CRED_MAX_STRING_LENGTH : nat := 2560.

(** The fields of the class. [keytar] tells whether the module is bound. *)
Record t := {
  service : string;
  displayName : string;
  keytar : bool;
  loadError : option ImperativeError;
  allServices : list string
}.

Definition constructor (service displayName : string) : t :=
  {| service := service;
     displayName := displayName;
     keytar := false;
     loadError := None;
     allServices :=
       ([service] ++ (if negb (String.eqb service SVC_NAME) then [SVC_NAME] else []))
       ++ ["@zowe/cli"; "Zowe-Plugin"; "Broadcom-Plugin"] |}.

(** What [require.resolve] followed by [import] did. *)
Inductive import_outcome :=
| Imported
| ImportFailed (error : string).

Definition initialize (m : t) (o : import_outcome) : t :=
  match o with
  | Imported =>
      {| service := service m; displayName := displayName m; keytar := true;
         loadError := loadError m; allServices := allServices m |}
  | ImportFailed error =>
      {| service := service m; displayName := displayName m; keytar := keytar m;
         loadError := Some {| msg := "Keytar not Installed";
                              causeErrors := Some error;
                              additionalDetails := None;
                              suppressReport := false |};
         allServices := allServices m |}
  end.

Definition unknown_cause_error : ImperativeError :=
  {| msg := "Keytar was not properly loaded due to an unknown cause.";
     causeErrors := None; additionalDetails := None; suppressReport := true |}.

Definition checkForKeytar (m : t) : M unit :=
  if keytar m then mret tt
  else match loadError m with
       | None => throw unknown_cause_error
       | Some e => throw e
       end.

(** [`${account}-${index}`] *)
Definition chunk_account (account : string) (index : nat) : string :=
  account +:+ "-" +:+ pretty index.

Definition end_of_value (value : option string) : bool :=
  match value with
  | Some x => endsWith x (String NUL EmptyString)
  | None => true
  end.

Fixpoint join_services (services : list string) (acc : string) : string :=
  match services with
  | [] => acc
  | s :: rest => join_services rest (acc +:+ s +:+ ", ")
  end.

Definition getMissingEntryMessage (m : t) (account : string) : string :=
  let listOfServices := join_services (allServices m) "  Service = " in
  let listOfServices :=
    drop_last 2 listOfServices +:+ String LF "  Account = " +:+ account
      +:+ String LF (String LF "") in
  "Could not find an entry in the credential vault for the following:" +:+ String LF ""
  +:+ listOfServices
  +:+ "Possible Causes:" +:+ String LF ""
  +:+ "  This could have been caused by any manual removal of credentials from your vault."
  +:+ String LF (String LF "")
  +:+ "Resolutions: " +:+ String LF ""
  +:+ "  Recreate the credentials in the vault for the particular service in the vault."
  +:+ String LF "".

Definition missing_entry_error (m : t) (account : string) : ImperativeError :=
  {| msg := "Unable to load credentials.";
     causeErrors := None;
     additionalDetails := Some (getMissingEntryMessage m account);
     suppressReport := false |}.

Section Platform.
(** [process.platform] *)
Variable platform : string.

Definition win32 : bool := String.eqb platform "win32".

(** The [do ... while] loop of [getCredentialsHelper]. *)
Fixpoint get_chunks (fuel : nat) (service account : string) (index : nat)
    (value : option string) : M (option string) :=
  match fuel with
  | 0 => diverge
  | S fuel' =>
      tempValue ← kt_getPassword service (chunk_account account index);
      let value :=
        match tempValue with
        | Some tv => Some (default "" value +:+ tv)
        | None => value
        end in
      if end_of_value value then mret value
      else get_chunks fuel' service account (S index) value
  end.

Definition getCredentialsHelper (fuel : nat) (service account : string)
    : M (option string) :=
  value ← kt_getPassword service account;
  if is_null value && win32 then
    value ← get_chunks fuel service account 1 value;
    mret (strip_trailing_nul <$> value)
  else mret value.

(** The [while (value.length > 0)] loop of [setCredentialsHelper]. *)
Fixpoint set_chunks (fuel : nat) (service account value : string) (index : nat)
    : M unit :=
  if 0 <? String.length value then
    match fuel with
    | 0 => diverge
    | S fuel' =>
        let tempValue := slice_to WIN32_CRED_MAX_STRING_LENGTH value in
        _ ← kt_setPassword service (chunk_account account index) tempValue;
        set_chunks fuel' service account
          (slice_from WIN32_CRED_MAX_STRING_LENGTH value) (S index)
    end
  else mret tt.

Definition setCredentialsHelper (fuel : nat) (service account value : string)
    : M unit :=
  if win32 && (WIN32_CRED_MAX_STRING_LENGTH <? String.length value) then
    _ ← kt_deletePassword service account;
    set_chunks fuel service account (value +:+ String NUL "") 1
  else kt_setPassword service account value.

(** The [for ... of this.allServices] loop of [deleteCredentialsHelper]. *)
Fixpoint delete_services (services : list string) (account : string)
    (keepCurrentSvc : option bool) (wasDeleted : bool) : M bool :=
  match services with
  | [] => mret wasDeleted
  | service :: rest =>
      if default false keepCurrentSvc && String.eqb service SVC_NAME then
        delete_services rest account keepCurrentSvc wasDeleted
      else
        deleted ← kt_deletePassword service account;
        delete_services rest account keepCurrentSvc
          (if (deleted : bool) then true else wasDeleted)
  end.

(** The [while (await deletePassword(...))] loop; returns the final index. *)
Fixpoint delete_chunks (fuel : nat) (account : string) (index : nat) : M nat :=
  match fuel with
  | 0 => diverge
  | S fuel' =>
      deleted ← kt_deletePassword SVC_NAME (chunk_account account index);
      if (deleted : bool) then delete_chunks fuel' account (S index) else mret index
  end.

Definition deleteCredentialsHelper (fuel : nat) (m : t) (account : string)
    (keepCurrentSvc : option bool) : M bool :=
  wasDeleted ← delete_services (allServices m) account keepCurrentSvc false;
  if win32 then
    index ← delete_chunks fuel account 1;
    mret (if 1 <? index then true else wasDeleted)
  else mret wasDeleted.

Definition deleteCredentials (fuel : nat) (m : t) (account : string) : M unit :=
  _ ← checkForKeytar m;
  _ ← deleteCredentialsHelper fuel m account None;
  mret tt.

Definition loadHelper (fuel : nat) (account service : string) : M (option string) :=
  secureValue ← getCredentialsHelper fuel service account;
  secureValue ←
    (if is_null secureValue && endsWith account "_username"
     then kt_getPassword service (replace account "_username" "_user")
     else mret secureValue);
  secureValue ←
    (if is_null secureValue && endsWith account "_pass"
     then kt_getPassword service (replace account "_pass" "_password")
     else mret secureValue);
  mret secureValue.

(** The [for ... of this.allServices] loop of [loadCredentials]. *)
Fixpoint load_services (fuel : nat) (account : string) (services : list string)
    (secValue : option string) : M (option string) :=
  match services with
  | [] => mret secValue
  | nextService :: rest =>
      secValue ← loadHelper fuel account nextService;
      if negb (is_null secValue) then mret secValue
      else load_services fuel account rest secValue
  end.

Definition loadCredentials (fuel : nat) (m : t) (account : string)
    (optional : option bool) : M (option string) :=
  _ ← checkForKeytar m;
  secValue ← load_services fuel account (allServices m) None;
  if is_null secValue && negb (default false optional) then
    throw (missing_entry_error m account)
  else mret secValue.

Definition saveCredentials (fuel : nat) (m : t) (account credentials : string)
    : M unit :=
  _ ← checkForKeytar m;
  _ ← deleteCredentialsHelper fuel m account (Some true);
  setCredentialsHelper fuel (service m) account credentials.

End Platform.

(** *** Predicates used in the statements *)

(** Some chunk entry at or after [index] ends with the terminator. *)
Definition terminator_from (v : Vault) (service account : string) (index : nat) : Prop :=
  ∃ i c, index ≤ i ∧ v !! (service, chunk_account account i) = Some c ∧
         endsWith c (String NUL "") = true.

(** A value is cut cleanly when no slice other than the last ends with the
    terminator character. *)
Definition cut_cleanly (value : string) : Prop :=
  ∀ k, 0 < k → k * WIN32_CRED_MAX_STRING_LENGTH < String.length value →
       String.get (k * WIN32_CRED_MAX_STRING_LENGTH - 1) value ≠ Some NUL.

(** No value can be found for the account under the service: no single
    entry, on Windows no first chunk, and no entry under a legacy name. *)
Definition no_entry (platform : string) (v : Vault) (service account : string) : Prop :=
  v !! (service, account) = None ∧
  (win32 platform = true → v !! (service, chunk_account account 1) = None) ∧
  (endsWith account "_username" = true →
     v !! (service, replace account "_username" "_user") = None) ∧
  (endsWith account "_pass" = true →
     v !! (service, replace account "_pass" "_password") = None).

(** The account has no value elsewhere: no first chunk under a service other
    than the built-in one, and no entry under a legacy account name. *)
Definition no_other_source (v : Vault) (services : list string) (account : string)
    : Prop :=
  ∀ s, s ∈ services →
    (s ≠ SVC_NAME → v !! (s, chunk_account account 1) = None) ∧
    (endsWith account "_username" = true →
       v !! (s, replace account "_username" "_user") = None) ∧
    (endsWith account "_pass" = true →
       v !! (s, replace account "_pass" "_password") = None).

(** The reassembly loop, started as [getCredentialsHelper] starts it, finishes. *)
Definition loop_terminates (v : Vault) (service account : string) : Prop :=
  ∃ fuel r, get_chunks fuel service account 1 None v = Ret r v.

(** Either there is no first chunk, or the unbroken run of chunks starting at
    number one contains a chunk that ends with the terminator. *)
Definition run_reaches_terminator (v : Vault) (service account : string) : Prop :=
  v !! (service, chunk_account account 1) = None ∨
  ∃ n c, 1 ≤ n ∧
    (∀ j, 1 ≤ j ≤ n → is_Some (v !! (service, chunk_account account j))) ∧
    v !! (service, chunk_account account n) = Some c ∧
    endsWith c (String NUL "") = true.

(** [n] copies of the character [c], to build long values. *)
Fixpoint repeat_char (n : nat) (c : ascii) : string :=
  match n with
  | 0 => EmptyString
  | S n' => String c (repeat_char n' c)
  end.

End DefaultCredentialManager.

(** ** Config: layers, merged view and [set]

    The sources of [Config] are not among the files, only its unit tests are
    (the [load] and [set] suites). The module follows the specification:
    the data model of section 3, the layer load of section 4.2, the merge and
    [set] of section 4.3 and the generic tagged value of the design notes. *)

Set Warnings "-register-all".

Module Config.

(** Modelled from the spec: a generic tagged JSON value (design notes, dynamic
    dotted-path traversal); objects keep their keys in insertion order. *)
Inductive value : Type :=
| VNull
| VBool (b : bool)
| VNum (n : Z)
| VStr (s : string)
| VArr (items : list value)
| VObj (fields : list (string * value)).

(** Modelled from the spec: reading the property [k] of an object, [obj[k]]
    (the [Config] sources are not among the files). *)
Fixpoint field_get {A} (k : string) (fields : list (string * A)) : option A :=
  match fields with
  | [] => None
  | (k', x) :: rest => if String.eqb k k' then Some x else field_get k rest
  end.

(** Modelled from the spec: writing a property, [obj[k] = x]; an existing key
    keeps its place, a new key goes last. *)
Fixpoint field_set {A} (k : string) (x : A) (fields : list (string * A))
    : list (string * A) :=
  match fields with
  | [] => [(k, x)]
  | (k', y) :: rest =>
      if String.eqb k k' then (k, x) :: rest else (k', y) :: field_set k x rest
  end.

(** Modelled from the spec: the segments of a dotted path,
    [dottedPath.split(".")]. *)
Fixpoint split_dotted (s : string) : list string :=
  match s with
  | EmptyString => [EmptyString]
  | String c s' =>
      if Ascii.eqb c "." then EmptyString :: split_dotted s'
      else match split_dotted s' with
           | seg :: rest => String c seg :: rest
           | [] => [String c EmptyString]
           end
  end.

(** Modelled from the spec: the value found by walking the segments of a
    dotted path. *)
Fixpoint get_path (path : list string) (doc : value) : option value :=
  match path with
  | [] => Some doc
  | k :: rest =>
      match doc with
      | VObj fields =>
          match field_get k fields with
          | Some child => get_path rest child
          | None => None
          end
      | _ => None
      end
  end.

(** The number written by a string of decimal digits. *)
Fixpoint parse_digits (s : string) (acc : Z) : option Z :=
  match s with
  | EmptyString => Some acc
  | String c s' =>
      match Ascii.is_nat c with
      | Some d => parse_digits s' (10 * acc + Z.of_nat d)
      | None => None
      end
  end.

(** Modelled from the spec: the integer pattern is an optional minus sign
    followed by one or more decimal digits. *)
Definition parse_integer (s : string) : option Z :=
  match s with
  | EmptyString => None
  | String c s' =>
      if Ascii.eqb c "-" then
        match s' with
        | EmptyString => None
        | _ => Z.opp <$> parse_digits s' 0
        end
      else parse_digits s 0
  end.

(** Modelled from the spec: value coercion of [set] (section 4.3). *)
Definition coerce (v : value) : value :=
  match v with
  | VStr s =>
      if String.eqb s "true" then VBool true
      else if String.eqb s "false" then VBool false
      else match parse_integer s with
           | Some n => VNum n
           | None => VStr s
           end
  | _ => v
  end.

(** Modelled from the spec: what [set] leaves at the target, given what is
    there now. An array argument replaces the target; otherwise the coerced
    value is appended to an array target and replaces any other target. *)
Definition stored (current : option value) (v : value) : value :=
  match v with
  | VArr _ => v
  | _ =>
      match current with
      | Some (VArr items) => VArr (items ++ [coerce v])
      | _ => coerce v
      end
  end.

(** Modelled from the spec: the walk of [set] along the path segments
    (section 4.3). Intermediate segments are created as empty objects on
    demand and no validation of the path is done: a segment that is missing,
    or that holds a value which is not an object, is taken as a new empty
    object, so the walk always reaches the target. *)
Fixpoint set_path (path : list string) (v : value) (doc : value) : value :=
  let fields := match doc with VObj fields => fields | _ => [] end in
  match path with
  | [] => doc
  | [k] => VObj (field_set k (stored (field_get k fields) v) fields)
  | k :: rest =>
      VObj (field_set k (set_path rest v (default (VObj []) (field_get k fields))) fields)
  end.

Definition string_in (s : string) (items : list value) : bool :=
  existsb (λ x, match x with VStr s' => String.eqb s s' | _ => false end) items.

(** Modelled from the spec: [addSecure] appends the path to the layer's
    [secure] list unless it is already there. *)
Definition add_secure (dottedPath : string) (doc : value) : value :=
  match doc with
  | VObj fields =>
      let secure :=
        match field_get "secure" fields with
        | Some (VArr items) => items
        | _ => []
        end in
      if string_in dottedPath secure then doc
      else VObj (field_set "secure" (VArr (secure ++ [VStr dottedPath])) fields)
  | _ => doc
  end.

(** Modelled from the spec: one layer (section 3). The field [exists] of the
    spec is [exists_] here. *)
Record ConfigLayer := {
  path : string;
  exists_ : bool;
  properties : value
}.

(** Modelled from the spec: the [Config] object (section 3): the layers,
    highest precedence first, and the index of the active layer. *)
Record t := {
  layers : list ConfigLayer;
  activeLayerIndex : nat
}.

(** Modelled from the spec: the empty skeleton of an absent layer
    (section 4.2). *)
Definition empty_properties : value :=
  VObj [("profiles", VObj []); ("defaults", VObj []); ("plugins", VArr []);
        ("secure", VArr [])].

(** Modelled from the spec: [ConfigLayer.load] on a file that is absent
    ([None]) or holds a parsed document. *)
Definition load_layer (path : string) (file : option value) : ConfigLayer :=
  match file with
  | Some doc => {| path := path; exists_ := true; properties := doc |}
  | None => {| path := path; exists_ := false; properties := empty_properties |}
  end.

(** Modelled from the spec: the four canonical files, in the order
    project-user, project, global-user, global. *)
Record Files := {
  projectUser : string * option value;
  project : string * option value;
  globalUser : string * option value;
  global : string * option value
}.

(** Modelled from the spec: [Config.load] (section 4.3), after the layer
    locator found the four paths. Secure values, when there are any, are spliced
    into the layer documents before the merge; the documents given here stand
    for the layers as the merge sees them. *)
Definition load (files : Files) : t :=
  {| layers := [load_layer (projectUser files).1 (projectUser files).2;
                load_layer (project files).1 (project files).2;
                load_layer (globalUser files).1 (globalUser files).2;
                load_layer (global files).1 (global files).2];
     activeLayerIndex := 0 |}.

Definition with_properties (l : ConfigLayer) (doc : value) : ConfigLayer :=
  {| path := path l; exists_ := exists_ l; properties := doc |}.

(** Modelled from the spec: [Config.set] (section 4.3): the walk is done in
    the properties of the active layer, and with [options.secure] the path is
    added to that layer's [secure] list. It returns nothing; the result here is
    the [Config] after the call. *)
Definition set (c : t) (dottedPath : string) (v : value) (secure : bool) : t :=
  {| layers :=
       alter (λ layer,
                let doc := set_path (split_dotted dottedPath) v (properties layer) in
                with_properties layer (if secure then add_secure dottedPath doc else doc))
             (activeLayerIndex c) (layers c);
     activeLayerIndex := activeLayerIndex c |}.

(** Modelled from the spec: a node of the profiles tree (section 3). *)
Inductive ProfileNode : Type :=
| Node (type : option string) (props : list (string * value))
       (profiles : list (string * ProfileNode)).

Definition node_props (n : ProfileNode) : list (string * value) :=
  match n with Node _ ps _ => ps end.

Definition node_profiles (n : ProfileNode) : list (string * ProfileNode) :=
  match n with Node _ _ cs => cs end.

(** Modelled from the spec: the profile node (section 3) held by a JSON value:
    its [type], its [properties] and, recursively, its [profiles]. *)
Fixpoint decode_node (v : value) : ProfileNode :=
  match v with
  | VObj fields =>
      Node (match field_get "type" fields with Some (VStr ty) => Some ty | _ => None end)
           (match field_get "properties" fields with Some (VObj ps) => ps | _ => [] end)
           ((fix nested (fields : list (string * value)) : list (string * ProfileNode) :=
               match fields with
               | [] => []
               | (k, c) :: rest =>
                   if String.eqb "profiles" k then
                     match c with
                     | VObj cs => map (λ kv, (kv.1, decode_node kv.2)) cs
                     | _ => []
                     end
                   else nested rest
               end) fields)
  | _ => Node None [] []
  end.

(** Modelled from the spec: the profiles tree of a layer document. *)
Definition profiles_of (doc : value) : list (string * ProfileNode) :=
  node_profiles (decode_node doc).

Definition object_of (doc : value) (k : string) : list (string * value) :=
  match doc with
  | VObj fields => match field_get k fields with Some (VObj fs) => fs | _ => [] end
  | _ => []
  end.

Definition array_of (doc : value) (k : string) : list value :=
  match doc with
  | VObj fields => match field_get k fields with Some (VArr xs) => xs | _ => [] end
  | _ => []
  end.

Definition strings_of (doc : value) (k : string) : list string :=
  omap (λ x, match x with VStr s => Some s | _ => None end) (array_of doc k).

Definition has_key {A} (k : string) (fields : list (string * A)) : bool :=
  match field_get k fields with Some _ => true | None => false end.

(** Modelled from the spec: shallow merge of two mappings, the entries of the
    layer of higher precedence [hi] win (section 4.3). *)
Definition merge_shallow {A} (hi lo : list (string * A)) : list (string * A) :=
  hi ++ filter (λ kv, has_key kv.1 hi = false) lo.

(** Modelled from the spec: deep merge of two profile nodes; the node coming
    from the layer of higher precedence is [hi]. *)
Fixpoint merge_node (hi lo : ProfileNode) : ProfileNode :=
  match hi with
  | Node ty ps cs =>
      Node (match ty with Some _ => ty | None => match lo with Node ty' _ _ => ty' end end)
           (merge_shallow ps (node_props lo))
           (map (λ kn, (kn.1, match field_get kn.1 (node_profiles lo) with
                              | Some n' => merge_node kn.2 n'
                              | None => kn.2
                              end)) cs
            ++ filter (λ kv, has_key kv.1 cs = false) (node_profiles lo))
  end.

(** Modelled from the spec: deep merge of two profiles trees. *)
Definition merge_profiles (hi lo : list (string * ProfileNode))
    : list (string * ProfileNode) :=
  node_profiles (merge_node (Node None [] hi) (Node None [] lo)).

(** Modelled from the spec: union of the plugin arrays, order preserved, first
    occurrence kept (section 4.3). *)
Fixpoint union_first (seen xs : list string) : list string :=
  match xs with
  | [] => []
  | x :: rest =>
      if bool_decide (x ∈ seen) then union_first seen rest
      else x :: union_first (seen ++ [x]) rest
  end.

(** Modelled from the spec: the merged read view (section 4.3). *)
Record Merged := {
  m_profiles : list (string * ProfileNode);
  m_defaults : list (string * value);
  m_plugins : list string
}.

(** Modelled from the spec: the merged read view of a [Config] (section 4.3):
    the layers are merged from the lowest precedence up, each layer winning
    over the merge of the layers below it. *)
Definition merged (c : t) : Merged :=
  {| m_profiles :=
       foldr (λ l acc, merge_profiles (profiles_of (properties l)) acc) [] (layers c);
     m_defaults :=
       foldr (λ l acc, merge_shallow (object_of (properties l) "defaults") acc) [] (layers c);
     m_plugins :=
       union_first [] (concat (map (λ l, strings_of (properties l) "plugins") (layers c))) |}.

(** The first defined value of a list of optional values. *)
Fixpoint first_defined {A} (xs : list (option A)) : option A :=
  match xs with
  | [] => None
  | Some x :: _ => Some x
  | None :: rest => first_defined rest
  end.

(** The JSON path of the property [key] of the profile reached by [names]. *)
Definition property_path (names : list string) (key : string) : list string :=
  flat_map (λ name, ["profiles"; name]) names ++ ["properties"; key].

(** The node reached by a chain of profile names. *)
Fixpoint find_node (names : list string) (profiles : list (string * ProfileNode))
    : option ProfileNode :=
  match names with
  | [] => None
  | [name] => field_get name profiles
  | name :: rest =>
      match field_get name profiles with
      | Some n => find_node rest (node_profiles n)
      | None => None
      end
  end.

(** The property [key] of the profile reached by [names]. *)
Definition lookup_property (names : list string) (key : string)
    (profiles : list (string * ProfileNode)) : option value :=
  match find_node names profiles with
  | Some n => field_get key (node_props n)
  | None => None
  end.

End Config.

(** ** Further predicates used in the statements *)
Module CredentialProperties.
Import JsString DefaultCredentialManager.

(** A decimal digit, as [pretty] writes the numbers of the numbered entries. *)
Definition is_digit (c : ascii) : Prop := ∃ d, (d < 10)%N ∧ c = pretty_N_char d.

(** The numbered entries of the account under the built-in service have no
    gap: when entry number [j + 1] exists, so does entry number [j]. *)
Definition gap_free (v : Vault) (account : string) : Prop :=
  ∀ j, 1 ≤ j →
    is_Some (v !! (SVC_NAME, chunk_account account (S j))) →
    is_Some (v !! (SVC_NAME, chunk_account account j)).

End CredentialProperties.

(** * Properties *)

(** ** Facts about the string primitives *)
Module JsStringFacts.
Import JsString.

Lemma append_nil (b : string) : "" +:+ b = b.
Proof. reflexivity. Qed.

Lemma append_cons (c : ascii) (a b : string) : String c a +:+ b = String c (a +:+ b).
Proof. reflexivity. Qed.

Lemma length_append (a b : string) :
  String.length (a +:+ b) = String.length a + String.length b.
Proof.
  induction a as [|c a IH]; [done |].
  rewrite append_cons. simpl. by rewrite IH.
Qed.

Lemma append_empty_r (a : string) : a +:+ "" = a.
Proof. induction a as [|c a IH]; [done |]. by rewrite append_cons, IH. Qed.

Lemma append_assoc (a b c : string) : (a +:+ b) +:+ c = a +:+ b +:+ c.
Proof. induction a as [|x a IH]; [done |]. by rewrite !append_cons, IH. Qed.

Lemma length_zero_empty (s : string) : String.length s = 0 → s = "".
Proof. by destruct s. Qed.

Lemma slice_to_from (n : nat) (s : string) : slice_to n s +:+ slice_from n s = s.
Proof.
  revert s; induction n as [|n IH]; intros [|c s]; simpl; try done.
  by rewrite append_cons, IH.
Qed.

Lemma length_slice_to (n : nat) (s : string) :
  String.length (slice_to n s) = n `min` String.length s.
Proof.
  revert s; induction n as [|n IH]; intros [|c s]; simpl; try done.
  by rewrite IH.
Qed.

Lemma length_slice_from (n : nat) (s : string) :
  String.length (slice_from n s) = String.length s - n.
Proof.
  revert s; induction n as [|n IH]; intros [|c s]; simpl; try done.
Qed.

Lemma slice_to_all (n : nat) (s : string) : String.length s ≤ n → slice_to n s = s.
Proof.
  revert s; induction n as [|n IH]; intros [|c s]; simpl; try done; try lia.
  intros H. rewrite IH; [done | lia].
Qed.

Lemma slice_from_add (n k : nat) (s : string) :
  slice_from k (slice_from n s) = slice_from (n + k) s.
Proof.
  revert s; induction n as [|n IH]; intros s; simpl; [done |].
  destruct s as [|c s]; [by destruct k | apply IH].
Qed.

Lemma get_slice_from (n k : nat) (s : string) :
  String.get k (slice_from n s) = String.get (n + k) s.
Proof.
  revert s; induction n as [|n IH]; intros s; simpl; [done |].
  destruct s as [|c s]; [by destruct k | apply IH].
Qed.

Lemma slice_from_last (c : ascii) (s : string) :
  slice_from (String.length s) (String c s) = 
  match s with EmptyString => String c "" | _ => slice_from (String.length s - 1) s end.
Proof. destruct s as [|d s]; simpl; [done | by rewrite Nat.sub_0_r]. Qed.

Lemma endsWith_last_char (s : string) (c : ascii) :
  endsWith s (String c "") = true ↔ last_char s = Some c.
Proof.
  unfold endsWith. simpl String.length.
  induction s as [|a s IH].
  - simpl. split; discriminate.
  - replace (String.length (String a s) - 1) with (String.length s) by (simpl; lia).
    rewrite slice_from_last. destruct s as [|b s].
    + simpl. destruct (Ascii.eqb_spec a c); split; intros; congruence.
    + rewrite <- IH. simpl. done.
Qed.

Lemma last_char_app (a b : string) :
  last_char (a +:+ b) = match b with EmptyString => last_char a | _ => last_char b end.
Proof.
  induction a as [|x a IH].
  - by destruct b.
  - rewrite append_cons. simpl. rewrite IH.
    destruct a as [|y a]; [destruct b; done |].
    rewrite append_cons. by destruct b.
Qed.

Lemma last_char_get (s : string) :
  last_char s = match s with EmptyString => None | _ => String.get (String.length s - 1) s end.
Proof.
  induction s as [|a s IH]; [done |].
  simpl. rewrite IH. destruct s as [|b s]; [done |]. simpl.
  by rewrite Nat.sub_0_r.
Qed.

Lemma get_slice_to (n k : nat) (s : string) :
  k < n → String.get k (slice_to n s) = String.get k s.
Proof.
  revert k s; induction n as [|n IH]; intros k s Hk; [lia |].
  destruct s as [|c s]; [done |]. simpl.
  destruct k as [|k]; [done |]. apply IH. lia.
Qed.

Lemma endsWith_app (a b : string) (c : ascii) :
  b ≠ "" → endsWith (a +:+ b) (String c "") = endsWith b (String c "").
Proof.
  intros Hb. apply eq_true_iff_eq. rewrite !endsWith_last_char, last_char_app.
  by destruct b.
Qed.

Lemma endsWith_empty (c : ascii) : endsWith "" (String c "") = false.
Proof. done. Qed.

Lemma strip_trailing_nul_app (s : string) :
  strip_trailing_nul (s +:+ String NUL "") = s.
Proof.
  unfold strip_trailing_nul. rewrite endsWith_app by done.
  change (endsWith (String NUL "") (String NUL "")) with true. cbv iota.
  unfold drop_last. rewrite length_append. simpl String.length.
  replace (String.length s + 1 - 1) with (String.length s) by lia.
  induction s as [|a s IH]; [done |].
  rewrite append_cons. simpl. by rewrite IH.
Qed.

Lemma startsWith_refl (p : string) : startsWith p p = true.
Proof. induction p as [|c p IH]; simpl; [done | by rewrite Ascii.eqb_refl]. Qed.

Lemma slice_from_all (s : string) : slice_from (String.length s) s = EmptyString.
Proof. induction s as [|c s IH]; [done | exact IH]. Qed.

(** When the pattern first occurs at the very end of the string, [replace]
    rewrites that suffix. *)
Lemma replace_at_end (base pat rep : string) :
  (∀ n, n < String.length base →
        startsWith (slice_from n (base +:+ pat)) pat = false) →
  replace (base +:+ pat) pat rep = base +:+ rep.
Proof.
  induction base as [|c base IH]; intros Hfirst.
  - rewrite !append_nil. destruct pat as [|a pat]; [apply append_empty_r |].
    cbn [replace]. rewrite startsWith_refl, slice_from_all. apply append_empty_r.
  - rewrite !append_cons. cbn [replace].
    pose proof (Hfirst 0) as H0. rewrite append_cons in H0.
    cbn [slice_from] in H0. rewrite H0 by (simpl; lia).
    rewrite IH; [done |]. intros n Hn.
    specialize (Hfirst (S n)). rewrite append_cons in Hfirst.
    apply Hfirst. simpl. lia.
Qed.

End JsStringFacts.

(** ** Facts about the credential manager *)
Module CredentialFacts.
Import JsString JsStringFacts DefaultCredentialManager.

#[local] Arguments WIN32_CRED_MAX_STRING_LENGTH : simpl never.

Ltac unfold_M :=
  unfold mbind, M_bind, mret, M_ret, throw, diverge,
    kt_getPassword, kt_setPassword, kt_deletePassword,
    getPassword, setPassword, deletePassword in *; simpl fst in *; simpl snd in *.

Lemma chunk_account_inj (account : string) (i j : nat) :
  chunk_account account i = chunk_account account j → i = j.
Proof.
  unfold chunk_account. intros H.
  apply (inj (String.append account)) in H.
  apply (inj (String.append "-")) in H.
  by apply (inj pretty) in H.
Qed.

Lemma chunk_account_ne (account : string) (i : nat) :
  chunk_account account i ≠ account.
Proof.
  unfold chunk_account. intros H.
  apply (f_equal String.length) in H.
  rewrite !length_append in H. simpl in H. lia.
Qed.

(** *** The reassembly loop *)

Lemma get_chunks_step (fuel : nat) (service account : string) (index : nat)
    (value : option string) (v : Vault) :
  get_chunks (S fuel) service account index value v =
    let value' :=
      match v !! (service, chunk_account account index) with
      | Some tv => Some (default "" value +:+ tv)
      | None => value
      end in
    if end_of_value value' then Ret value' v
    else get_chunks fuel service account (S index) value' v.
Proof.
  cbn [get_chunks]. unfold_M. cbv zeta.
  by destruct (end_of_value _).
Qed.

Lemma get_chunks_outcome (fuel : nat) (service account : string) (index : nat)
    (value : option string) (v : Vault) :
  get_chunks fuel service account index value v = Diverge ∨
  ∃ r, get_chunks fuel service account index value v = Ret r v.
Proof.
  revert index value; induction fuel as [|fuel IH]; intros index value.
  - by left.
  - rewrite get_chunks_step. cbv zeta.
    destruct (end_of_value _); [right; eauto | apply IH].
Qed.

Lemma get_chunks_mono (fuel fuel' : nat) (service account : string) (index : nat)
    (value r : option string) (v v' : Vault) :
  fuel ≤ fuel' →
  get_chunks fuel service account index value v = Ret r v' →
  get_chunks fuel' service account index value v = Ret r v'.
Proof.
  revert fuel' index value; induction fuel as [|fuel IH]; intros fuel' index value Hle.
  - discriminate.
  - destruct fuel' as [|fuel']; [lia |].
    rewrite !get_chunks_step. cbv zeta.
    destruct (end_of_value _); [done |]. apply IH. lia.
Qed.

Lemma get_chunks_reaches (d : nat) (service account : string) (index : nat)
    (value : option string) (v : Vault) (c : string) :
  v !! (service, chunk_account account (index + d)) = Some c →
  endsWith c (String NUL "") = true →
  ∃ r, get_chunks (S d) service account index value v = Ret r v.
Proof.
  revert index value; induction d as [|d IH]; intros index value Hc Hend.
  - rewrite Nat.add_0_r in Hc. rewrite get_chunks_step, Hc. cbv zeta.
    unfold end_of_value. rewrite endsWith_app by (intros ->; done).
    rewrite Hend. eauto.
  - rewrite get_chunks_step. cbv zeta.
    destruct (end_of_value _); [eauto |].
    apply IH; [| done]. by replace (S index + d) with (index + S d) by lia.
Qed.

Lemma get_chunks_returns_inv (fuel : nat) (service account : string) (index : nat)
    (value r : option string) (v v' : Vault) :
  endsWith (default "" value) (String NUL "") = false →
  get_chunks fuel service account index value v = Ret r v' →
  (value = None ∧ v !! (service, chunk_account account index) = None ∧ r = None)
  ∨ terminator_from v service account index.
Proof.
  revert index value; induction fuel as [|fuel IH]; intros index value Hacc; [done |].
  rewrite get_chunks_step. cbv zeta.
  destruct (v !! (service, chunk_account account index)) as [tv|] eqn:Htv.
  - destruct (end_of_value _) eqn:Hend.
    + intros _. right. exists index, tv. split; [done |]. split; [done |].
      unfold end_of_value in Hend. destruct tv as [|a tv].
      * rewrite append_empty_r in Hend. congruence.
      * by rewrite endsWith_app in Hend.
    + intros H. apply IH in H; [| done].
      destruct H as [(? & _) | (i & c & Hi & Hc & Hend')]; [done |].
      right. exists i, c. split; [lia | done].
  - destruct value as [x|]; simpl in *.
    + rewrite Hacc. intros H. apply IH in H; [| done].
      destruct H as [(? & _) | (i & c & Hi & Hc & Hend')]; [done |].
      right. exists i, c. split; [lia | done].
    + intros [= <- <-]. by left.
Qed.

(** *** The chunk-writing loop *)

Lemma max_length_pos : 0 < WIN32_CRED_MAX_STRING_LENGTH.
Proof. unfold WIN32_CRED_MAX_STRING_LENGTH. lia. Qed.

Lemma length_nonempty (s : string) : s ≠ "" → 0 < String.length s.
Proof. destruct s; [done | simpl; lia]. Qed.

Lemma set_chunks_empty (fuel : nat) (service account : string) (index : nat) (v : Vault) :
  set_chunks fuel service account "" index v = Ret tt v.
Proof. by destruct fuel. Qed.

Lemma set_chunks_step (fuel : nat) (service account value : string) (index : nat)
    (v : Vault) :
  value ≠ "" →
  set_chunks (S fuel) service account value index v =
    set_chunks fuel service account
      (slice_from WIN32_CRED_MAX_STRING_LENGTH value) (S index)
      (<[(service, chunk_account account index) :=
           slice_to WIN32_CRED_MAX_STRING_LENGTH value]> v).
Proof. intros Hne. destruct value as [|c value]; [done |]. reflexivity. Qed.

Lemma set_chunks_terminates (fuel : nat) (service account value : string) (index : nat)
    (v : Vault) :
  String.length value ≤ fuel →
  ∃ v', set_chunks fuel service account value index v = Ret tt v'.
Proof.
  revert value index v; induction fuel as [|fuel IH]; intros value index v Hlen.
  - apply Nat.le_0_r, length_zero_empty in Hlen as ->. eauto.
  - destruct (decide (value = "")) as [-> | Hne]; [eauto |].
    rewrite set_chunks_step by done. apply IH.
    rewrite length_slice_from.
    pose proof max_length_pos. pose proof (length_nonempty _ Hne). lia.
Qed.

(** Entries other than the chunk entries from [index] on are left alone. *)
Lemma set_chunks_other (fuel : nat) (service account value : string) (index : nat)
    (v v' : Vault) (k : string * string) :
  set_chunks fuel service account value index v = Ret tt v' →
  (∀ j, index ≤ j → k ≠ (service, chunk_account account j)) →
  v' !! k = v !! k.
Proof.
  revert value index v; induction fuel as [|fuel IH]; intros value index v Hrun Hk.
  - destruct value; [by injection Hrun as <- | done].
  - destruct (decide (value = "")) as [-> | Hne]; [by injection Hrun as <- |].
    rewrite set_chunks_step in Hrun by done.
    rewrite (IH _ _ _ Hrun) by (intros j Hj; apply Hk; lia).
    apply lookup_insert_ne. intros <-. by apply (Hk index).
Qed.

(** The entry number [index + i] holds the [i]-th slice of the value. *)
Lemma set_chunks_entries (fuel : nat) (service account value : string) (index : nat)
    (v v' : Vault) (i : nat) :
  set_chunks fuel service account value index v = Ret tt v' →
  i * WIN32_CRED_MAX_STRING_LENGTH < String.length value →
  v' !! (service, chunk_account account (index + i)) =
    Some (slice_to WIN32_CRED_MAX_STRING_LENGTH
            (slice_from (i * WIN32_CRED_MAX_STRING_LENGTH) value)).
Proof.
  revert value index v i; induction fuel as [|fuel IH]; intros value index v i Hrun Hi.
  - destruct value; [simpl in Hi; lia | done].
  - destruct (decide (value = "")) as [-> | Hne]; [simpl in Hi; lia |].
    rewrite set_chunks_step in Hrun by done.
    destruct i as [|i].
    + rewrite Nat.add_0_r.
      rewrite (set_chunks_other _ _ _ _ _ _ _ _ Hrun).
      * by rewrite lookup_insert_eq.
      * intros j Hj [= Heq]. apply chunk_account_inj in Heq. lia.
    + replace (index + S i) with (S index + i) by lia.
      rewrite (IH _ _ _ i Hrun).
      * by rewrite slice_from_add.
      * rewrite length_slice_from. rewrite Nat.mul_succ_l in Hi. lia.
Qed.

Lemma cut_cleanly_slice_from (value : string) :
  cut_cleanly value → cut_cleanly (slice_from WIN32_CRED_MAX_STRING_LENGTH value).
Proof.
  intros H k Hk Hlen. rewrite length_slice_from in Hlen.
  rewrite get_slice_from.
  replace (WIN32_CRED_MAX_STRING_LENGTH + (k * WIN32_CRED_MAX_STRING_LENGTH - 1))
    with (S k * WIN32_CRED_MAX_STRING_LENGTH - 1) by (pose proof max_length_pos; nia).
  apply H; [lia |]. rewrite Nat.mul_succ_l. lia.
Qed.

Lemma first_slice_not_terminated (value : string) :
  cut_cleanly value →
  WIN32_CRED_MAX_STRING_LENGTH < String.length value →
  endsWith (slice_to WIN32_CRED_MAX_STRING_LENGTH value) (String NUL "") = false.
Proof.
  intros H Hlen. apply not_true_is_false. rewrite endsWith_last_char, last_char_get.
  pose proof max_length_pos as Hpos.
  destruct (slice_to _ value) as [|a s] eqn:Hs.
  { done. }
  rewrite <- Hs, length_slice_to, Nat.min_l by lia.
  rewrite get_slice_to by lia.
  specialize (H 1). rewrite Nat.mul_1_l in H. apply H; lia.
Qed.

(** Reading back what [set_chunks] wrote. *)
Lemma get_chunks_set_chunks (fuel fuel' : nat) (service account value : string)
    (index : nat) (acc : option string) (v v' : Vault) :
  set_chunks fuel service account value index v = Ret tt v' →
  value ≠ "" →
  endsWith value (String NUL "") = true →
  cut_cleanly value →
  String.length value ≤ fuel' →
  get_chunks fuel' service account index acc v' = Ret (Some (default "" acc +:+ value)) v'.
Proof.
  revert fuel' value index acc v.
  induction fuel as [|fuel IH]; intros fuel' value index acc v Hrun Hne Hend Hcut Hlen.
  - by destruct value.
  - pose proof (set_chunks_entries _ _ _ _ _ _ _ 0 Hrun) as Hentry.
    rewrite Nat.add_0_r, Nat.mul_0_l in Hentry. simpl slice_from in Hentry.
    specialize (Hentry (length_nonempty _ Hne)).
    rewrite set_chunks_step in Hrun by done.
    destruct fuel' as [|fuel'].
    { apply Nat.le_0_r, length_zero_empty in Hlen. done. }
    rewrite get_chunks_step, Hentry.
    cbv zeta. unfold end_of_value.
    destruct (decide (String.length value ≤ WIN32_CRED_MAX_STRING_LENGTH)) as [Hshort|Hlong].
    + rewrite slice_to_all by done. by rewrite endsWith_app, Hend.
    + assert (slice_to WIN32_CRED_MAX_STRING_LENGTH value ≠ "") as Hne1.
      { intros Heq. apply (f_equal String.length) in Heq.
        rewrite length_slice_to in Heq. change (String.length "") with 0 in Heq.
        pose proof max_length_pos. lia. }
      rewrite endsWith_app by done.
      rewrite first_slice_not_terminated by (done || lia).
      assert (slice_from WIN32_CRED_MAX_STRING_LENGTH value ≠ "") as Hne2.
      { intros Heq. apply (f_equal String.length) in Heq.
        rewrite length_slice_from in Heq. change (String.length "") with 0 in Heq. lia. }
      rewrite (IH fuel' _ _ _ _ Hrun); try done.
      * change (default "" (Some ?x)) with x.
        by rewrite append_assoc, slice_to_from.
      * rewrite <- (slice_to_from WIN32_CRED_MAX_STRING_LENGTH value) in Hend.
        by rewrite endsWith_app in Hend.
      * by apply cut_cleanly_slice_from.
      * rewrite length_slice_from. pose proof max_length_pos. lia.
Qed.

(** *** Deletion *)

Lemma kt_deletePassword_run (service account : string) (v : Vault) :
  kt_deletePassword service account v =
    Ret (bool_decide (is_Some (v !! (service, account)))) (delete (service, account) v).
Proof. reflexivity. Qed.

Lemma delete_services_spec (services : list string) (account : string)
    (keepCurrentSvc : option bool) (wasDeleted : bool) (v : Vault) :
  ∃ b v', delete_services services account keepCurrentSvc wasDeleted v = Ret b v' ∧
    v' ⊆ v ∧
    (∀ k, (∀ s, s ∈ services → k ≠ (s, account)) → v' !! k = v !! k) ∧
    (∀ s, s ∈ services →
          default false keepCurrentSvc && String.eqb s SVC_NAME = false →
          v' !! (s, account) = None).
Proof.
  revert wasDeleted v; induction services as [|s services IH]; intros wasDeleted v.
  - exists wasDeleted, v. split; [done |]. split; [done |].
    split; [done |]. intros s Hs. by apply elem_of_nil in Hs.
  - cbn [delete_services].
    destruct (default false keepCurrentSvc && String.eqb s SVC_NAME) eqn:Hskip.
    + destruct (IH wasDeleted v) as (b & v' & Hrun & Hsub & Hother & Hgone).
      exists b, v'. split; [done |]. split; [done |]. split.
      * intros k Hk. apply Hother. intros s' Hs'. apply Hk. by right.
      * intros s' Hs' Hkeep. apply elem_of_cons in Hs' as [-> | Hs']; [congruence |].
        by apply Hgone.
    + unfold mbind, M_bind. rewrite kt_deletePassword_run.
      destruct (IH (if bool_decide (is_Some (v !! (s, account))) then true else wasDeleted)
                  (delete (s, account) v)) as (b & v' & Hrun & Hsub & Hother & Hgone).
      exists b, v'. split; [done |]. split.
      { etrans; [done | apply delete_subseteq]. }
      split.
      * intros k Hk. rewrite Hother by (intros s' Hs'; apply Hk; by right).
        apply lookup_delete_ne. intros <-. apply (Hk s); [by left | done].
      * intros s' Hs' Hkeep.
        destruct (decide (s' ∈ services)) as [Hin | Hnin]; [by apply Hgone |].
        apply elem_of_cons in Hs' as [-> | Hs']; [| done].
        eapply lookup_weaken_None; [| done]. apply lookup_delete_eq.
Qed.

Lemma delete_chunks_spec (fuel : nat) (account : string) (index : nat) (v : Vault) :
  size v < fuel →
  ∃ n v', delete_chunks fuel account index v = Ret n v' ∧
    index ≤ n ∧ v' ⊆ v ∧
    (∀ k, (∀ j, index ≤ j < n → k ≠ (SVC_NAME, chunk_account account j)) →
          v' !! k = v !! k) ∧
    (∀ j, index ≤ j < n →
          is_Some (v !! (SVC_NAME, chunk_account account j)) ∧
          v' !! (SVC_NAME, chunk_account account j) = None) ∧
    v !! (SVC_NAME, chunk_account account n) = None.
Proof.
  revert index v; induction fuel as [|fuel IH]; intros index v Hsize; [lia |].
  cbn [delete_chunks]. unfold mbind, M_bind. rewrite kt_deletePassword_run.
  destruct (v !! (SVC_NAME, chunk_account account index)) as [x|] eqn:Hx.
  - rewrite bool_decide_eq_true_2 by eauto.
    destruct (IH (S index) (delete (SVC_NAME, chunk_account account index) v))
      as (n & v' & Hrun & Hn & Hsub & Hother & Hrange & Hlast).
    { rewrite map_size_delete_Some by eauto.
      assert (size v ≠ 0); [| lia].
      intros Hz%map_size_empty_iff. by rewrite Hz, lookup_empty in Hx. }
    exists n, v'. split; [done |]. split; [lia |]. split.
    { etrans; [done | apply delete_subseteq]. }
    split; [| split].
    + intros k Hk. rewrite Hother by (intros j Hj; apply Hk; lia).
      apply lookup_delete_ne. intros <-. apply (Hk index); [lia | done].
    + intros j Hj. destruct (decide (j = index)) as [-> | Hne].
      * split; [eauto |]. eapply lookup_weaken_None; [| done]. apply lookup_delete_eq.
      * destruct (Hrange j) as [Hsome Hnone]; [lia |]. split; [| done].
        rewrite lookup_delete_ne in Hsome; [done |].
        intros [= Heq]. apply chunk_account_inj in Heq. lia.
    + rewrite lookup_delete_ne in Hlast; [done |].
      intros [= Heq]. apply chunk_account_inj in Heq. lia.
  - rewrite bool_decide_eq_false_2 by (intros [? ?]; congruence).
    exists index, (delete (SVC_NAME, chunk_account account index) v).
    split; [done |]. split; [lia |]. split; [apply delete_subseteq |].
    split; [| split; [intros j Hj; lia | done]].
    intros k _. by rewrite delete_id.
Qed.

(** *** Reading *)

Section Reading.
Variable platform : string.

Lemma get_chunks_some (fuel : nat) (service account : string) (index : nat)
    (x : string) (r : option string) (v v' : Vault) :
  get_chunks fuel service account index (Some x) v = Ret r v' → is_Some r.
Proof.
  revert index x; induction fuel as [|fuel IH]; intros index x; [done |].
  rewrite get_chunks_step. cbv zeta.
  destruct (v !! _) as [tv|].
  - destruct (end_of_value _); [intros [= <- _]; eauto | apply IH].
  - destruct (end_of_value _); [intros [= <- _]; eauto | apply IH].
Qed.

Lemma get_chunks_null (fuel : nat) (service account : string) (index : nat)
    (v v' : Vault) :
  get_chunks fuel service account index None v = Ret None v' →
  v !! (service, chunk_account account index) = None.
Proof.
  destruct fuel as [|fuel]; [done |].
  rewrite get_chunks_step. cbv zeta.
  destruct (v !! _) as [tv|]; [| done].
  destruct (end_of_value _); [done |].
  intros H%get_chunks_some. by destruct H.
Qed.

Lemma getCredentialsHelper_run (fuel : nat) (service account : string) (v : Vault) :
  getCredentialsHelper platform fuel service account v =
    match v !! (service, account) with
    | Some x => Ret (Some x) v
    | None =>
        if win32 platform then
          match get_chunks fuel service account 1 None v with
          | Ret r v' => Ret (strip_trailing_nul <$> r) v'
          | Throw e v' => Throw e v'
          | Diverge => Diverge
          end
        else Ret None v
    end.
Proof.
  unfold getCredentialsHelper. unfold_M.
  destruct (v !! (service, account)); simpl; [done |].
  by destruct (win32 platform).
Qed.

Lemma getCredentialsHelper_outcome (fuel : nat) (service account : string) (v : Vault) :
  getCredentialsHelper platform fuel service account v = Diverge ∨
  ∃ r, getCredentialsHelper platform fuel service account v = Ret r v.
Proof.
  rewrite getCredentialsHelper_run.
  destruct (v !! (service, account)); [eauto |].
  destruct (win32 platform); [| eauto].
  destruct (get_chunks_outcome fuel service account 1 None v) as [-> | [r ->]]; eauto.
Qed.

Lemma getCredentialsHelper_null (fuel : nat) (service account : string) (v : Vault) :
  1 ≤ fuel →
  getCredentialsHelper platform fuel service account v = Ret None v ↔
  v !! (service, account) = None ∧
  (win32 platform = true → v !! (service, chunk_account account 1) = None).
Proof.
  intros Hfuel. rewrite getCredentialsHelper_run. split.
  - destruct (v !! (service, account)); [done |]. intros H. split; [done |].
    intros Hwin. rewrite Hwin in H.
    destruct (get_chunks fuel service account 1 None v) as [r v'| |] eqn:Hrun; try done.
    destruct r; [done |]. by apply get_chunks_null in Hrun.
  - intros [-> Hchunk]. destruct (win32 platform); [| done].
    destruct fuel as [|fuel]; [lia |].
    by rewrite get_chunks_step, Hchunk.
Qed.

Lemma loadHelper_run (fuel : nat) (account service : string) (v : Vault) :
  loadHelper platform fuel account service v =
    match getCredentialsHelper platform fuel service account v with
    | Ret (Some x) v' => Ret (Some x) v'
    | Ret None v' =>
        let secureValue :=
          if endsWith account "_username"
          then v' !! (service, replace account "_username" "_user") else None in
        Ret (if is_null secureValue && endsWith account "_pass"
             then v' !! (service, replace account "_pass" "_password")
             else secureValue) v'
    | Throw e v' => Throw e v'
    | Diverge => Diverge
    end.
Proof.
  unfold loadHelper. unfold_M.
  destruct (getCredentialsHelper _ _ _ _ _) as [[x|] v'| |]; try done.
  simpl. destruct (endsWith account "_username"); simpl.
  - destruct (v' !! _); simpl; [done |]. by destruct (endsWith account "_pass").
  - by destruct (endsWith account "_pass").
Qed.

Lemma loadHelper_outcome (fuel : nat) (account service : string) (v : Vault) :
  loadHelper platform fuel account service v = Diverge ∨
  ∃ r, loadHelper platform fuel account service v = Ret r v.
Proof.
  rewrite loadHelper_run.
  destruct (getCredentialsHelper_outcome fuel service account v) as [-> | [r ->]];
    [by left | right].
  destruct r; eauto.
Qed.

Lemma loadHelper_null (fuel : nat) (account service : string) (v : Vault) :
  1 ≤ fuel →
  loadHelper platform fuel account service v = Ret None v ↔
  no_entry platform v service account.
Proof.
  intros Hfuel. rewrite loadHelper_run. unfold no_entry.
  pose proof (getCredentialsHelper_null fuel service account v Hfuel) as Hg.
  destruct (getCredentialsHelper_outcome fuel service account v) as [Hd | [r Hr]].
  { rewrite Hd in *. split; [done |]. intros (H1 & H2 & _).
    by destruct Hg as [_ Hg]; specialize (Hg (conj H1 H2)). }
  rewrite Hr in *. destruct r as [x|].
  { split; [done |]. intros (H1 & H2 & _).
    by destruct Hg as [_ Hg]; specialize (Hg (conj H1 H2)). }
  destruct Hg as [Hg _]. destruct (Hg eq_refl) as [Hdirect Hchunk]. cbv zeta.
  destruct (endsWith account "_username").
  - destruct (v !! (service, replace account "_username" "_user")) eqn:Hu; simpl.
    + split; [done |]. intros (_ & _ & Hn & _). by specialize (Hn eq_refl).
    + destruct (endsWith account "_pass").
      * split; [intros [= ->]; done |]. intros (_ & _ & _ & Hp). by rewrite Hp.
      * split; done.
  - simpl. destruct (endsWith account "_pass").
    + split; [intros [= ->]; done |]. intros (_ & _ & _ & Hp). by rewrite Hp.
    + split; done.
Qed.

Lemma load_services_outcome (fuel : nat) (account : string) (services : list string)
    (secValue : option string) (v : Vault) :
  load_services platform fuel account services secValue v = Diverge ∨
  ∃ r, load_services platform fuel account services secValue v = Ret r v.
Proof.
  revert secValue; induction services as [|s services IH]; intros secValue.
  - right. by eexists.
  - cbn [load_services]. unfold mbind, M_bind.
    destruct (loadHelper_outcome fuel account s v) as [-> | [r ->]]; [by left |].
    destruct r; simpl; [right; by eexists | apply IH].
Qed.

Lemma load_services_first_hit (fuel : nat) (account : string)
    (pre post : list string) (s x : string) (secValue : option string) (v : Vault) :
  (∀ s', s' ∈ pre → loadHelper platform fuel account s' v = Ret None v) →
  loadHelper platform fuel account s v = Ret (Some x) v →
  load_services platform fuel account (pre ++ s :: post) secValue v = Ret (Some x) v.
Proof.
  revert secValue; induction pre as [|p pre IH]; intros secValue Hpre Hs.
  - cbn [app load_services]. unfold mbind, M_bind. by rewrite Hs.
  - cbn [app load_services]. unfold mbind, M_bind.
    rewrite (Hpre p) by (by left). simpl. apply IH; [| done].
    intros s' Hs'. apply Hpre. by right.
Qed.

Lemma load_services_null (fuel : nat) (account : string) (services : list string)
    (v : Vault) :
  load_services platform fuel account services None v = Ret None v ↔
  ∀ s, s ∈ services → loadHelper platform fuel account s v = Ret None v.
Proof.
  induction services as [|s services IH].
  - split; [intros _ s Hs; by apply elem_of_nil in Hs | done].
  - cbn [load_services]. unfold mbind, M_bind.
    destruct (loadHelper_outcome fuel account s v) as [Hd | [r Hr]].
    { rewrite Hd. split; [done |]. intros H. rewrite (H s) in Hd by (by left). done. }
    rewrite Hr. destruct r as [x|]; simpl.
    + split; [done |]. intros H. rewrite (H s) in Hr by (by left). done.
    + rewrite IH. split.
      * intros H s' [-> | Hs']%elem_of_cons; [done | by apply H].
      * intros H s' Hs'. apply H. by right.
Qed.

Lemma loadCredentials_run (fuel : nat) (m : t) (account : string)
    (optional : option bool) (v : Vault) :
  keytar m = true →
  loadCredentials platform fuel m account optional v =
    match load_services platform fuel account (allServices m) None v with
    | Ret None v' =>
        if default false optional then Ret None v'
        else Throw (missing_entry_error m account) v'
    | other => other
    end.
Proof.
  intros Hk. unfold loadCredentials, checkForKeytar. rewrite Hk. unfold_M.
  destruct (load_services _ _ _ _ _ _) as [[x|] v'| |]; try done.
  simpl. by destruct (default false optional).
Qed.

End Reading.

(** *** Saving and deleting *)

Section Writing.
Variable platform : string.

Lemma deleteCredentialsHelper_spec (fuel : nat) (m : t) (account : string)
    (keepCurrentSvc : option bool) (v : Vault) :
  size v < fuel →
  ∃ b v', deleteCredentialsHelper platform fuel m account keepCurrentSvc v = Ret b v' ∧
    v' ⊆ v ∧
    (∀ s, s ∈ allServices m →
          default false keepCurrentSvc && String.eqb s SVC_NAME = false →
          v' !! (s, account) = None) ∧
    (win32 platform = true →
       v' !! (SVC_NAME, chunk_account account 1) = None ∧
       ∀ j, 1 ≤ j →
            (∀ i, 1 ≤ i ≤ j → is_Some (v !! (SVC_NAME, chunk_account account i))) →
            v' !! (SVC_NAME, chunk_account account j) = None) ∧
    (∀ s a, a ≠ account → (∀ j, a ≠ chunk_account account j) →
            v' !! (s, a) = v !! (s, a)).
Proof.
  intros Hsize. unfold deleteCredentialsHelper, mbind, M_bind.
  destruct (delete_services_spec (allServices m) account keepCurrentSvc false v)
    as (b & v1 & -> & Hsub1 & Hother1 & Hgone1).
  destruct (win32 platform) eqn:Hwin.
  - destruct (delete_chunks_spec fuel account 1 v1)
      as (n & v2 & -> & Hn & Hsub2 & Hother2 & Hrange & Hlast).
    { pose proof (map_subseteq_size _ _ Hsub1). lia. }
    eexists _, v2. split; [reflexivity |]. split; [by etrans |].
    split; [| split].
    + intros s Hs Hkeep. eapply lookup_weaken_None; [| done]. by apply Hgone1.
    + intros _.
      assert (∀ j, 1 ≤ j →
        (∀ i, 1 ≤ i ≤ j → is_Some (v !! (SVC_NAME, chunk_account account i))) →
        v2 !! (SVC_NAME, chunk_account account j) = None) as Hrun.
      { intros j Hj Hall. destruct (decide (j < n)) as [Hlt | Hge].
        - by apply Hrange.
        - destruct (Hall n) as [x Hx]; [lia |].
          rewrite <- Hother1 in Hx; [congruence |].
          intros s _ [= _ Heq]. by apply chunk_account_ne in Heq. }
      split; [| done].
      destruct (v !! (SVC_NAME, chunk_account account 1)) as [x|] eqn:Hx.
      * apply Hrun; [lia |]. intros i Hi. replace i with 1 by lia. eauto.
      * eapply lookup_weaken_None; [done | by etrans].
    + intros s a Ha Hchunk. rewrite Hother2, Hother1; [done | |].
      * intros s' _ [= _ ?]. done.
      * intros j _ [= _ ?]. by apply (Hchunk j).
  - eexists _, v1. split; [reflexivity |]. split; [done |].
    split; [done |]. split; [done |].
    intros s a Ha _. apply Hother1. intros s' _ [= _ ?]. done.
Qed.

Lemma setCredentialsHelper_terminates (fuel : nat) (service account value : string)
    (v : Vault) :
  String.length value < fuel →
  ∃ v', setCredentialsHelper platform fuel service account value v = Ret tt v'.
Proof.
  intros Hfuel. unfold setCredentialsHelper.
  destruct (win32 platform && _); [| by eexists].
  unfold mbind, M_bind. rewrite kt_deletePassword_run.
  apply set_chunks_terminates. rewrite length_append. simpl. lia.
Qed.

(** Entries of other services are not touched by a write. *)
Lemma setCredentialsHelper_other_service (fuel : nat) (service account value : string)
    (v v' : Vault) (s a : string) :
  setCredentialsHelper platform fuel service account value v = Ret tt v' →
  s ≠ service → v' !! (s, a) = v !! (s, a).
Proof.
  unfold setCredentialsHelper. intros Hrun Hs.
  destruct (win32 platform && _).
  - unfold mbind, M_bind in Hrun. rewrite kt_deletePassword_run in Hrun.
    rewrite (set_chunks_other _ _ _ _ _ _ _ _ Hrun) by (intros j _ [= ? _]; done).
    apply lookup_delete_ne. by intros [= ? _].
  - injection Hrun as <-. apply lookup_insert_ne. by intros [= ? _].
Qed.

Lemma setCredentialsHelper_short (fuel : nat) (service account value : string)
    (v : Vault) :
  win32 platform && (WIN32_CRED_MAX_STRING_LENGTH <? String.length value) = false →
  setCredentialsHelper platform fuel service account value v =
    Ret tt (<[(service, account) := value]> v).
Proof. unfold setCredentialsHelper. by intros ->. Qed.

(** A long value on Windows: the single entry is removed and the value,
    followed by the terminator, is spread over numbered entries. *)
Lemma setCredentialsHelper_long (fuel : nat) (service account value : string)
    (v v' : Vault) :
  win32 platform = true →
  WIN32_CRED_MAX_STRING_LENGTH < String.length value →
  setCredentialsHelper platform fuel service account value v = Ret tt v' →
  set_chunks fuel service account (value +:+ String NUL "") 1
    (delete (service, account) v) = Ret tt v' ∧
  v' !! (service, account) = None.
Proof.
  intros Hwin Hlong. unfold setCredentialsHelper. rewrite Hwin.
  apply Nat.ltb_lt in Hlong as ->. cbn [andb].
  unfold mbind, M_bind. rewrite kt_deletePassword_run. intros Hrun.
  split; [done |].
  rewrite (set_chunks_other _ _ _ _ _ _ _ _ Hrun).
  - apply lookup_delete_eq.
  - intros j _ [= Heq]. symmetry in Heq. by apply chunk_account_ne in Heq.
Qed.

Lemma saveCredentials_run (fuel : nat) (m : t) (account credentials : string)
    (v : Vault) :
  keytar m = true →
  saveCredentials platform fuel m account credentials v =
    match deleteCredentialsHelper platform fuel m account (Some true) v with
    | Ret _ v1 => setCredentialsHelper platform fuel (service m) account credentials v1
    | Throw e v1 => Throw e v1
    | Diverge => Diverge
    end.
Proof. intros Hk. unfold saveCredentials, checkForKeytar. rewrite Hk. reflexivity. Qed.

Lemma deleteCredentials_run (fuel : nat) (m : t) (account : string) (v : Vault) :
  keytar m = true →
  deleteCredentials platform fuel m account v =
    match deleteCredentialsHelper platform fuel m account None v with
    | Ret _ v1 => Ret tt v1
    | Throw e v1 => Throw e v1
    | Diverge => Diverge
    end.
Proof. intros Hk. unfold deleteCredentials, checkForKeytar. rewrite Hk. reflexivity. Qed.

End Writing.

Lemma win32_win32 : win32 "win32" = true.
Proof. reflexivity. Qed.

Lemma cut_cleanly_terminated (value : string) :
  (∀ k, 0 < k → k * WIN32_CRED_MAX_STRING_LENGTH ≤ String.length value →
        String.get (k * WIN32_CRED_MAX_STRING_LENGTH - 1) value ≠ Some NUL) →
  cut_cleanly (value +:+ String NUL "").
Proof.
  intros H k Hk Hlen. rewrite length_append in Hlen. simpl in Hlen.
  pose proof max_length_pos.
  rewrite <- String.append_correct1 by nia. apply H; lia.
Qed.

End CredentialFacts.

(** ** Further facts about the string primitives *)
Module JsStringExtras.
Import JsString JsStringFacts CredentialProperties.

Lemma slice_to_app_length (a b : string) :
  slice_to (String.length a) (a +:+ b) = a.
Proof.
  induction a as [|c a IH]; [by destruct b |].
  rewrite append_cons. simpl. by rewrite IH.
Qed.

(** A string that ends with a suffix is some prefix followed by the suffix. *)
Lemma endsWith_split (s suffix : string) :
  endsWith s suffix = true →
  s = slice_to (String.length s - String.length suffix) s +:+ suffix.
Proof.
  unfold endsWith. intros [_ Heq%String.eqb_eq]%andb_true_iff.
  rewrite <- (slice_to_from (String.length s - String.length suffix) s) at 1.
  by rewrite Heq.
Qed.

Lemma endsWith_last_char_eq (s suffix : string) :
  endsWith s suffix = true → suffix ≠ EmptyString →
  last_char s = last_char suffix.
Proof.
  intros Hs Hne. rewrite (endsWith_split _ _ Hs), last_char_app.
  by destruct suffix.
Qed.

Lemma last_char_slice_from (n : nat) (s : string) :
  slice_from n s ≠ EmptyString → last_char (slice_from n s) = last_char s.
Proof.
  intros Hne. rewrite <- (slice_to_from n s) at 2. rewrite last_char_app.
  by destruct (slice_from n s).
Qed.

Lemma startsWith_length (s p : string) :
  startsWith s p = true → String.length p ≤ String.length s.
Proof.
  revert s; induction p as [|a p IH]; intros s.
  - intros _. simpl. lia.
  - destruct s as [|b s]; [done |]. simpl. destruct (Ascii.eqb a b); [| done].
    intros H%IH. lia.
Qed.

Lemma startsWith_empty (s : string) : startsWith s EmptyString = true.
Proof. by destruct s. Qed.

Lemma slice_from_empty (n : nat) : slice_from n EmptyString = EmptyString.
Proof. by destruct n. Qed.

Lemma replace_unfold (s pat rep : string) :
  replace s pat rep =
    if startsWith s pat then rep +:+ slice_from (String.length pat) s
    else match s with
         | EmptyString => EmptyString
         | String c s' => String c (replace s' pat rep)
         end.
Proof. by destruct s. Qed.

(** The result of [replace] ends as the string did, or as the replacement. *)
Lemma last_char_replace (s pat rep : string) :
  rep ≠ EmptyString →
  last_char (replace s pat rep) = last_char s ∨
  last_char (replace s pat rep) = last_char rep.
Proof.
  intros Hrep. induction s as [|c s IH]; rewrite replace_unfold.
  - destruct (startsWith _ pat); [right | by left].
    by rewrite slice_from_empty, append_empty_r.
  - destruct (startsWith (String c s) pat) eqn:Hstart.
    + rewrite last_char_app.
      destruct (slice_from (String.length pat) (String c s)) eqn:Htail; [by right |].
      left. rewrite <- Htail. apply last_char_slice_from. by rewrite Htail.
    + destruct s as [|d s].
      * rewrite replace_unfold. destruct (startsWith EmptyString pat) eqn:Hempty.
        -- destruct pat; [by rewrite startsWith_empty in Hstart | done].
        -- by left.
      * assert (replace (String d s) pat rep ≠ EmptyString) as Hne.
        { rewrite replace_unfold. destruct (startsWith (String d s) pat); [| done].
          destruct rep; [done |]. by rewrite append_cons. }
        change (last_char (String c ?x)) with
          (match x with EmptyString => Some c | _ => last_char x end).
        destruct (replace (String d s) pat rep) eqn:Hr; [done |].
        rewrite <- Hr in *. destruct IH as [-> | ->]; [by left | by right].
Qed.

(** Replacing a suffix changes the length by the difference of the lengths of
    the replacement and the pattern, wherever the first occurrence lies. *)
Lemma length_replace_suffix (s pat rep : string) :
  endsWith s pat = true →
  String.length (replace s pat rep) + String.length pat =
    String.length s + String.length rep.
Proof.
  intros Hs. rewrite (endsWith_split _ _ Hs).
  generalize (slice_to (String.length s - String.length pat) s). clear s Hs.
  intros p. induction p as [|c p IH].
  - rewrite append_nil, replace_unfold, startsWith_refl, slice_from_all.
    rewrite append_empty_r. lia.
  - rewrite replace_unfold. destruct (startsWith _ pat) eqn:Hstart.
    + apply startsWith_length in Hstart.
      rewrite length_append, length_slice_from. lia.
    + rewrite append_cons. simpl. rewrite !length_append in *. lia.
Qed.

Lemma last_char_pretty_N_go (x : N) (s : string) :
  s ≠ EmptyString → last_char (pretty_N_go x s) = last_char s.
Proof.
  revert s. induction (N.lt_wf_0 x) as [x _ IH]; intros s Hs.
  assert (x = 0 ∨ 0 < x)%N as [-> | Hpos] by lia; [done |].
  rewrite pretty_N_go_step by done. rewrite IH; [| by apply N.div_lt | done].
  by destruct s.
Qed.

Lemma last_char_pretty (n : nat) :
  ∃ c, last_char (pretty n) = Some c ∧ is_digit c.
Proof.
  unfold pretty, pretty_nat, pretty, pretty_N.
  destruct (decide (N.of_nat n = 0%N)) as [| Hne].
  - exists "0"%char. split; [done |]. by exists 0%N.
  - rewrite pretty_N_go_step by lia. rewrite last_char_pretty_N_go by done.
    eexists. split; [reflexivity |]. eexists. split; [| reflexivity].
    by apply N.mod_lt.
Qed.

Lemma slice_to_add (n k : nat) (s : string) :
  slice_to (n + k) s = slice_to n s +:+ slice_to k (slice_from n s).
Proof.
  revert s; induction n as [|n IH]; intros s; [by rewrite append_nil |].
  destruct s as [|c s]; [by destruct k |].
  simpl. by rewrite IH, append_cons.
Qed.

Lemma slice_to_slice_to (n k : nat) (s : string) :
  slice_to k (slice_to (k + n) s) = slice_to k s.
Proof.
  revert s; induction k as [|k IH]; intros s; [by destruct s |].
  destruct s as [|c s]; [done |]. simpl. by rewrite IH.
Qed.

Lemma slice_to_app_prefix (n : nat) (a b : string) :
  n ≤ String.length a → slice_to n (a +:+ b) = slice_to n a.
Proof.
  revert a; induction n as [|n IH]; intros a Hn; [by destruct a, b |].
  destruct a as [|c a]; [simpl in Hn; lia |].
  rewrite append_cons. simpl. rewrite IH; [done | simpl in Hn; lia].
Qed.

Lemma slice_to_nonempty (n : nat) (s : string) :
  0 < n → s ≠ EmptyString → slice_to n s ≠ EmptyString.
Proof. intros Hn Hs. destruct n; [lia |]. by destruct s. Qed.

Lemma endsWith_get (s : string) (c : ascii) :
  endsWith s (String c EmptyString) = true →
  String.get (String.length s - 1) s = Some c.
Proof.
  intros Hend%endsWith_last_char. rewrite last_char_get in Hend. by destruct s.
Qed.

End JsStringExtras.

(** ** Further facts about the credential manager *)
Module CredentialExtraFacts.
Import JsString JsStringFacts JsStringExtras DefaultCredentialManager CredentialFacts.
Import CredentialProperties.
#[local] Arguments WIN32_CRED_MAX_STRING_LENGTH : simpl never.

(** *** Platforms other than Windows *)

Lemma getCredentialsHelper_not_win32 (platform : string) (fuel : nat)
    (service account : string) (v : Vault) :
  win32 platform = false →
  getCredentialsHelper platform fuel service account v =
    Ret (v !! (service, account)) v.
Proof.
  intros Hwin. rewrite getCredentialsHelper_run, Hwin.
  by destruct (v !! (service, account)).
Qed.

Lemma loadHelper_not_win32 (platform : string) (fuel fuel' : nat)
    (account service : string) (v : Vault) :
  win32 platform = false →
  loadHelper platform fuel account service v =
    loadHelper platform fuel' account service v.
Proof.
  intros Hwin. by rewrite !loadHelper_run, !getCredentialsHelper_not_win32.
Qed.

Lemma load_services_not_win32 (platform : string) (fuel fuel' : nat)
    (account : string) (services : list string) (secValue : option string)
    (v : Vault) :
  win32 platform = false →
  load_services platform fuel account services secValue v =
    load_services platform fuel' account services secValue v.
Proof.
  intros Hwin. revert secValue; induction services as [|s services IH]; intros secValue.
  - done.
  - cbn [load_services]. unfold mbind, M_bind.
    rewrite (loadHelper_not_win32 platform fuel fuel') by done.
    destruct (loadHelper_outcome platform fuel' account s v) as [-> | [r ->]];
      [done |].
    destruct (negb (is_null r)); [done | apply IH].
Qed.

(** *** What a deletion answers *)

Lemma delete_services_run (services : list string) (account : string)
    (keepCurrentSvc : option bool) (wasDeleted b : bool) (v v' : Vault) :
  delete_services services account keepCurrentSvc wasDeleted v = Ret b v' →
  v' ⊆ v ∧ (b = true ↔ wasDeleted = true ∨ v' ≠ v).
Proof.
  revert wasDeleted v; induction services as [|s services IH]; intros wasDeleted v.
  - intros [= <- <-]. split; [done |]. split; [by left | by intros [? | ?]].
  - cbn [delete_services].
    destruct (default false keepCurrentSvc && String.eqb s SVC_NAME); [apply IH |].
    unfold mbind, M_bind. rewrite kt_deletePassword_run. intros Hrun.
    apply IH in Hrun as [Hsub Hb].
    split; [etrans; [done | apply delete_subseteq] |].
    rewrite Hb. destruct (v !! (s, account)) as [x|] eqn:Hx.
    + rewrite bool_decide_eq_true_2 by eauto. split; [intros _ | by left].
      right. intros ->. apply (lookup_weaken_None _ _ (s, account)) in Hsub.
      * congruence.
      * apply lookup_delete_eq.
    + rewrite bool_decide_eq_false_2 by (intros [? ?]; congruence).
      by rewrite delete_id.
Qed.

Lemma delete_chunks_run (fuel : nat) (account : string) (index n : nat)
    (v v' : Vault) :
  delete_chunks fuel account index v = Ret n v' →
  v' ⊆ v ∧ index ≤ n ∧ (index < n ↔ v' ≠ v).
Proof.
  revert index v; induction fuel as [|fuel IH]; intros index v; [done |].
  cbn [delete_chunks]. unfold mbind, M_bind. rewrite kt_deletePassword_run.
  destruct (v !! (SVC_NAME, chunk_account account index)) as [x|] eqn:Hx.
  - rewrite bool_decide_eq_true_2 by eauto. intros Hrun.
    apply IH in Hrun as (Hsub & Hle & _).
    split; [etrans; [done | apply delete_subseteq] |]. split; [lia |].
    split; [intros _ | lia]. intros ->.
    apply (lookup_weaken_None _ _ (SVC_NAME, chunk_account account index)) in Hsub.
    + congruence.
    + apply lookup_delete_eq.
  - rewrite bool_decide_eq_false_2 by (intros [? ?]; congruence).
    intros [= <- <-]. rewrite delete_id by done.
    split; [done |]. split; [lia |]. split; [lia | done].
Qed.

(** *** The size of the vault after a write *)

Lemma set_chunks_size (fuel : nat) (service account value : string) (index : nat)
    (v v' : Vault) :
  set_chunks fuel service account value index v = Ret tt v' →
  size v' ≤ size v + String.length value.
Proof.
  revert value index v; induction fuel as [|fuel IH]; intros value index v Hrun.
  - destruct value; [injection Hrun as <-; lia | done].
  - destruct (decide (value = EmptyString)) as [-> | Hne];
      [injection Hrun as <-; lia |].
    rewrite set_chunks_step in Hrun by done. apply IH in Hrun.
    rewrite length_slice_from in Hrun.
    pose proof (length_nonempty _ Hne). pose proof max_length_pos.
    pose proof (map_size_insert (service, chunk_account account index)
                  (slice_to WIN32_CRED_MAX_STRING_LENGTH value) v) as Hsize.
    destruct (v !! _); unfold id in Hsize; lia.
Qed.

(** Entries numbered past the last slice are left alone. *)
Lemma set_chunks_beyond (fuel : nat) (service account value : string) (index : nat)
    (v v' : Vault) (i : nat) :
  set_chunks fuel service account value index v = Ret tt v' →
  String.length value ≤ i * WIN32_CRED_MAX_STRING_LENGTH →
  v' !! (service, chunk_account account (index + i)) =
    v !! (service, chunk_account account (index + i)).
Proof.
  revert value index v i; induction fuel as [|fuel IH]; intros value index v i Hrun Hi.
  - destruct value; [by injection Hrun as <- | done].
  - destruct (decide (value = EmptyString)) as [-> | Hne];
      [by injection Hrun as <- |].
    rewrite set_chunks_step in Hrun by done.
    pose proof (length_nonempty _ Hne).
    destruct i as [|i]; [lia |].
    replace (index + S i) with (S index + i) by lia.
    rewrite (IH _ _ _ i Hrun).
    + apply lookup_insert_ne. intros [= Heq]. apply chunk_account_inj in Heq. lia.
    + rewrite length_slice_from. rewrite Nat.mul_succ_l in Hi. lia.
Qed.

(** *** Operations outside Windows *)

Lemma deleteCredentialsHelper_not_win32 (platform : string) (fuel : nat) (m : t)
    (account : string) (keepCurrentSvc : option bool) (v : Vault) :
  win32 platform = false →
  ∃ b v', deleteCredentialsHelper platform fuel m account keepCurrentSvc v = Ret b v' ∧
    v' ⊆ v ∧
    (∀ k, (∀ s, s ∈ allServices m → k ≠ (s, account)) → v' !! k = v !! k) ∧
    (∀ s, s ∈ allServices m →
          default false keepCurrentSvc && String.eqb s SVC_NAME = false →
          v' !! (s, account) = None).
Proof.
  intros Hwin. unfold deleteCredentialsHelper, mbind, M_bind. rewrite Hwin.
  destruct (delete_services_spec (allServices m) account keepCurrentSvc false v)
    as (b & v' & -> & Hspec).
  by exists b, v'.
Qed.

(** *** A deletion that finds nothing *)

Lemma delete_services_absent (services : list string) (account : string)
    (keepCurrentSvc : option bool) (wasDeleted : bool) (v : Vault) :
  (∀ s, s ∈ services →
        default false keepCurrentSvc && String.eqb s SVC_NAME = false →
        v !! (s, account) = None) →
  delete_services services account keepCurrentSvc wasDeleted v = Ret wasDeleted v.
Proof.
  induction services as [|s services IH]; intros Habsent; [done |].
  cbn [delete_services].
  destruct (default false keepCurrentSvc && String.eqb s SVC_NAME) eqn:Hkeep.
  - apply IH. intros s' Hs'. apply Habsent. by right.
  - unfold mbind, M_bind. rewrite kt_deletePassword_run.
    assert (v !! (s, account) = None) as Hs by (apply Habsent; [by left | done]).
    rewrite bool_decide_eq_false_2 by (intros [? ?]; congruence).
    rewrite delete_id by done.
    apply IH. intros s' Hs'. apply Habsent. by right.
Qed.

Lemma deleteCredentialsHelper_absent (platform : string) (fuel : nat) (m : t)
    (account : string) (keepCurrentSvc : option bool) (v : Vault) :
  (∀ s, s ∈ allServices m →
        default false keepCurrentSvc && String.eqb s SVC_NAME = false →
        v !! (s, account) = None) →
  (win32 platform = true →
     1 ≤ fuel ∧ v !! (SVC_NAME, chunk_account account 1) = None) →
  deleteCredentialsHelper platform fuel m account keepCurrentSvc v = Ret false v.
Proof.
  intros Habsent Hchunk. unfold deleteCredentialsHelper, mbind, M_bind.
  rewrite delete_services_absent by done.
  destruct (win32 platform); [| done].
  destruct Hchunk as [Hfuel Hchunk]; [done |].
  destruct fuel as [|fuel]; [lia |].
  cbn [delete_chunks]. unfold mbind, M_bind. rewrite kt_deletePassword_run.
  rewrite bool_decide_eq_false_2 by (intros [? ?]; congruence).
  by rewrite delete_id.
Qed.

(** *** Which entries a deletion can touch *)

Lemma delete_chunks_touches (fuel : nat) (account : string) (index n : nat)
    (v v' : Vault) (k : string * string) :
  delete_chunks fuel account index v = Ret n v' →
  (∀ j, index ≤ j → k ≠ (SVC_NAME, chunk_account account j)) →
  v' !! k = v !! k.
Proof.
  revert index v; induction fuel as [|fuel IH]; intros index v Hrun Hk; [done |].
  cbn [delete_chunks] in Hrun. unfold mbind, M_bind in Hrun.
  rewrite kt_deletePassword_run in Hrun.
  destruct (bool_decide _).
  - rewrite (IH _ _ Hrun) by (intros j Hj; apply Hk; lia).
    apply lookup_delete_ne. intros <-. by apply (Hk index).
  - injection Hrun as _ <-.
    apply lookup_delete_ne. intros <-. by apply (Hk index).
Qed.

Lemma deleteCredentialsHelper_touches (platform : string) (fuel : nat) (m : t)
    (account : string) (keepCurrentSvc : option bool) (b : bool) (v v' : Vault)
    (k : string * string) :
  deleteCredentialsHelper platform fuel m account keepCurrentSvc v = Ret b v' →
  (∀ s, s ∈ allServices m → k ≠ (s, account)) →
  (win32 platform = true → ∀ j, 1 ≤ j → k ≠ (SVC_NAME, chunk_account account j)) →
  v' !! k = v !! k.
Proof.
  unfold deleteCredentialsHelper, mbind, M_bind. intros Hrun Hservice Hchunk.
  destruct (delete_services_spec (allServices m) account keepCurrentSvc false v)
    as (b1 & v1 & Hservices & _ & Hother & _).
  rewrite Hservices in Hrun.
  rewrite <- (Hother k) by done.
  destruct (win32 platform) eqn:Hwin; [| by injection Hrun as _ <-].
  destruct (delete_chunks fuel account 1 v1) as [n v2| |] eqn:Hchunks; try done.
  injection Hrun as _ <-.
  apply (delete_chunks_touches _ _ _ _ _ _ _ Hchunks). by apply Hchunk.
Qed.

(** *** Reading depends on the numbered entries only *)

Lemma get_chunks_ext (fuel : nat) (service account : string) (index : nat)
    (acc r : option string) (v1 v1' v2 : Vault) :
  (∀ j, index ≤ j →
        v2 !! (service, chunk_account account j) =
          v1 !! (service, chunk_account account j)) →
  get_chunks fuel service account index acc v1 = Ret r v1' →
  get_chunks fuel service account index acc v2 = Ret r v2.
Proof.
  revert index acc; induction fuel as [|fuel IH]; intros index acc Hext; [done |].
  rewrite !get_chunks_step, Hext by lia. cbv zeta.
  destruct (end_of_value _).
  - by intros [= <- _].
  - apply IH. intros j Hj. apply Hext. lia.
Qed.

(** *** Reading back any value written in slices *)

Lemma get_chunks_after_set_chunks (fuel fuel' : nat) (service account value : string)
    (index : nat) (acc : option string) (v v' : Vault) :
  set_chunks fuel service account value index v = Ret tt v' →
  value ≠ "" →
  endsWith value (String NUL "") = true →
  String.length value ≤ fuel' →
  ∃ n, 0 < n ≤ String.length value ∧
    (n = String.length value ∨ ∃ k, n = k * WIN32_CRED_MAX_STRING_LENGTH) ∧
    endsWith (slice_to n value) (String NUL "") = true ∧
    get_chunks fuel' service account index acc v' =
      Ret (Some (default "" acc +:+ slice_to n value)) v'.
Proof.
  revert fuel' value index acc v.
  induction fuel as [|fuel IH]; intros fuel' value index acc v Hrun Hne Hend Hlen.
  - by destruct value.
  - pose proof (set_chunks_entries _ _ _ _ _ _ _ 0 Hrun) as Hentry.
    rewrite Nat.add_0_r, Nat.mul_0_l in Hentry. simpl slice_from in Hentry.
    specialize (Hentry (length_nonempty _ Hne)).
    rewrite set_chunks_step in Hrun by done.
    destruct fuel' as [|fuel'].
    { apply Nat.le_0_r, length_zero_empty in Hlen. done. }
    rewrite get_chunks_step, Hentry.
    cbv zeta. unfold end_of_value.
    pose proof max_length_pos as Hpos. pose proof (length_nonempty _ Hne) as Hlen0.
    assert (slice_to WIN32_CRED_MAX_STRING_LENGTH value ≠ "") as Hne1
      by by apply slice_to_nonempty.
    rewrite endsWith_app by done.
    destruct (endsWith (slice_to WIN32_CRED_MAX_STRING_LENGTH value) (String NUL ""))
      eqn:Hfirst.
    + exists (WIN32_CRED_MAX_STRING_LENGTH `min` String.length value).
      assert (slice_to (WIN32_CRED_MAX_STRING_LENGTH `min` String.length value) value
              = slice_to WIN32_CRED_MAX_STRING_LENGTH value) as ->.
      { destruct (Nat.min_spec WIN32_CRED_MAX_STRING_LENGTH (String.length value))
          as [[_ ->] | [? ->]]; [done |].
        by rewrite !slice_to_all by lia. }
      split; [lia |]. split; [| done].
      destruct (Nat.min_spec WIN32_CRED_MAX_STRING_LENGTH (String.length value))
        as [[_ ->] | [_ ->]]; [right; exists 1; lia | by left].
    + assert (slice_from WIN32_CRED_MAX_STRING_LENGTH value ≠ "") as Hne2.
      { intros Heq. rewrite <- (slice_to_from WIN32_CRED_MAX_STRING_LENGTH value) in Hend.
        rewrite Heq, append_empty_r in Hend. congruence. }
      assert (WIN32_CRED_MAX_STRING_LENGTH < String.length value) as Hlong.
      { apply length_nonempty in Hne2. rewrite length_slice_from in Hne2. lia. }
      destruct (IH fuel' (slice_from WIN32_CRED_MAX_STRING_LENGTH value) (S index)
                  (Some (default "" acc +:+ slice_to WIN32_CRED_MAX_STRING_LENGTH value))
                  _ Hrun Hne2) as (n & Hn & Hmult & Hendn & Hget).
      * rewrite <- (slice_to_from WIN32_CRED_MAX_STRING_LENGTH value) in Hend.
        by rewrite endsWith_app in Hend.
      * rewrite length_slice_from. lia.
      * rewrite length_slice_from in Hn, Hmult.
        exists (WIN32_CRED_MAX_STRING_LENGTH + n). split; [lia |].
        split.
        { destruct Hmult as [-> | [k ->]]; [left; lia | right; exists (S k); lia]. }
        rewrite slice_to_add. split.
        -- rewrite endsWith_app; [done |]. apply slice_to_nonempty; [lia | done].
        -- rewrite Hget. change (default "" (Some ?x)) with x.
           by rewrite append_assoc.
Qed.

(** *** The length of what a write stores *)

Lemma set_chunks_bounded (fuel : nat) (service account value : string) (index : nat)
    (v v' : Vault) (k : string * string) (x : string) :
  set_chunks fuel service account value index v = Ret tt v' →
  v' !! k = Some x → v' !! k ≠ v !! k →
  String.length x ≤ WIN32_CRED_MAX_STRING_LENGTH.
Proof.
  revert value index v; induction fuel as [|fuel IH]; intros value index v Hrun Hx Hchanged.
  - destruct value; [| done]. injection Hrun as <-. done.
  - destruct (decide (value = EmptyString)) as [-> | Hne].
    { injection Hrun as <-. done. }
    rewrite set_chunks_step in Hrun by done.
    destruct (decide (v' !! k =
        <[(service, chunk_account account index) :=
            slice_to WIN32_CRED_MAX_STRING_LENGTH value]> v !! k)) as [Heq | Hneq].
    + destruct (decide (k = (service, chunk_account account index))) as [-> | Hk].
      * rewrite Heq, lookup_insert_eq in Hx.
        assert (x = slice_to WIN32_CRED_MAX_STRING_LENGTH value) as -> by congruence.
        rewrite length_slice_to. lia.
      * rewrite lookup_insert_ne in Heq by done. done.
    + by apply (IH _ _ _ Hrun).
Qed.

(** *** Legacy account names and numbered names *)

Lemma length_chunk_account (account : string) (index : nat) :
  String.length (chunk_account account index) =
    String.length account + 1 + String.length (pretty index).
Proof. unfold chunk_account. rewrite !length_append. simpl. lia. Qed.

Lemma last_char_chunk_account (account : string) (index : nat) :
  ∃ c, last_char (chunk_account account index) = Some c ∧ is_digit c.
Proof.
  destruct (last_char_pretty index) as (c & Hc & Hdigit).
  exists c. split; [| done]. unfold chunk_account.
  rewrite !last_char_app. destruct (pretty index); [done | done].
Qed.

Lemma is_digit_range (c : ascii) :
  is_digit c → (48 ≤ N_of_ascii c ≤ 57)%N.
Proof.
  intros (d & Hd & ->).
  assert (d = 0 ∨ d = 1 ∨ d = 2 ∨ d = 3 ∨ d = 4 ∨ d = 5 ∨ d = 6 ∨ d = 7 ∨ d = 8 ∨ d = 9)%N
    as Hcases by lia.
  repeat destruct Hcases as [-> | Hcases]; try subst d; vm_compute; split; discriminate.
Qed.

Lemma legacy_user_ne_account (account : string) :
  endsWith account "_username" = true →
  replace account "_username" "_user" ≠ account.
Proof.
  intros Hends Heq. apply (length_replace_suffix _ _ "_user") in Hends.
  rewrite Heq in Hends. simpl in Hends. lia.
Qed.

Lemma legacy_user_ne_chunk (account : string) (index : nat) :
  endsWith account "_username" = true →
  replace account "_username" "_user" ≠ chunk_account account index.
Proof.
  intros Hends Heq. apply (length_replace_suffix _ _ "_user") in Hends.
  rewrite Heq, length_chunk_account in Hends. simpl in Hends. lia.
Qed.

Lemma legacy_password_ne_account (account : string) :
  endsWith account "_pass" = true →
  replace account "_pass" "_password" ≠ account.
Proof.
  intros Hends Heq. apply (length_replace_suffix _ _ "_password") in Hends.
  rewrite Heq in Hends. simpl in Hends. lia.
Qed.

Lemma legacy_password_ne_chunk (account : string) (index : nat) :
  endsWith account "_pass" = true →
  replace account "_pass" "_password" ≠ chunk_account account index.
Proof.
  intros Hends Heq.
  destruct (last_char_chunk_account account index) as (c & Hc & Hdigit%is_digit_range).
  rewrite <- Heq in Hc.
  apply endsWith_last_char_eq in Hends; [| done].
  destruct (last_char_replace account "_pass" "_password") as [Hlast | Hlast]; [done | |].
  - rewrite Hlast, Hends in Hc. injection Hc as <-. vm_compute in Hdigit.
    destruct Hdigit as [_ Hdigit]. by apply Hdigit.
  - rewrite Hlast in Hc. injection Hc as <-. vm_compute in Hdigit.
    destruct Hdigit as [_ Hdigit]. by apply Hdigit.
Qed.

(** *** The list of services in the message *)

Lemma drop_last_app (a b : string) : drop_last (String.length b) (a +:+ b) = a.
Proof.
  unfold drop_last. rewrite length_append.
  replace (String.length a + String.length b - String.length b)
    with (String.length a) by lia.
  apply slice_to_app_length.
Qed.

Lemma join_services_concat (s : string) (services : list string) (acc : string) :
  drop_last 2 (join_services (s :: services) acc) =
    acc +:+ String.concat ", " (s :: services).
Proof.
  revert s acc; induction services as [|s' services IH]; intros s acc.
  - cbn [join_services String.concat].
    rewrite <- append_assoc. apply (drop_last_app _ ", ").
  - change (join_services (s :: s' :: services) acc)
      with (join_services (s' :: services) (acc +:+ s +:+ ", ")).
    rewrite IH. cbn [String.concat]. by rewrite !append_assoc.
Qed.

(** *** Exactly what a deletion removes *)

Lemma deleteCredentialsHelper_exact (platform : string) (fuel : nat) (m : t)
    (account : string) (keepCurrentSvc : option bool) (v : Vault) (n : nat) :
  1 ≤ n →
  (∀ j, 1 ≤ j < n → is_Some (v !! (SVC_NAME, chunk_account account j))) →
  v !! (SVC_NAME, chunk_account account n) = None →
  size v < fuel →
  ∃ b v', deleteCredentialsHelper platform fuel m account keepCurrentSvc v = Ret b v' ∧
    (∀ s, s ∈ allServices m →
          default false keepCurrentSvc && String.eqb s SVC_NAME = false →
          v' !! (s, account) = None) ∧
    (win32 platform = true →
       ∀ j, 1 ≤ j < n → v' !! (SVC_NAME, chunk_account account j) = None) ∧
    (∀ k, (∀ s, s ∈ allServices m → k ≠ (s, account)) →
          (win32 platform = true →
             ∀ j, 1 ≤ j < n → k ≠ (SVC_NAME, chunk_account account j)) →
          v' !! k = v !! k).
Proof.
  intros Hn Hrun Hstop Hsize. unfold deleteCredentialsHelper, mbind, M_bind.
  destruct (delete_services_spec (allServices m) account keepCurrentSvc false v)
    as (b & v1 & -> & Hsub1 & Hother1 & Hgone1).
  assert (∀ j, v1 !! (SVC_NAME, chunk_account account j) =
               v !! (SVC_NAME, chunk_account account j)) as Hsame.
  { intros j. apply Hother1. intros s _ [= _ Heq]. by apply chunk_account_ne in Heq. }
  destruct (win32 platform) eqn:Hwin.
  - destruct (delete_chunks_spec fuel account 1 v1)
      as (n0 & v2 & -> & Hn0 & Hsub2 & Hother2 & Hrange & Hlast).
    { pose proof (map_subseteq_size _ _ Hsub1). lia. }
    assert (n0 = n) as ->.
    { destruct (Nat.lt_trichotomy n0 n) as [Hlt | [Heq | Hgt]]; [| done |].
      - destruct (Hrun n0) as [x Hx]; [lia |]. rewrite Hsame in Hlast. congruence.
      - destruct (Hrange n) as [[x Hx] _]; [lia |]. rewrite Hsame in Hx. congruence. }
    eexists _, v2. split; [reflexivity |]. split; [| split].
    + intros s Hs Hkeep. eapply lookup_weaken_None; [| done]. by apply Hgone1.
    + intros _ j Hj. by apply Hrange.
    + intros k Hservice Hchunk. rewrite Hother2, Hother1; [done | done |].
      by apply Hchunk.
  - eexists _, v1. split; [reflexivity |]. split; [done |].
    split; [done |]. intros k Hservice _. by apply Hother1.
Qed.

(** *** Unbroken numbering *)

Lemma gap_free_run (v : Vault) (account : string) (j : nat) :
  gap_free v account →
  is_Some (v !! (SVC_NAME, chunk_account account j)) →
  ∀ i, 1 ≤ i ≤ j → is_Some (v !! (SVC_NAME, chunk_account account i)).
Proof.
  intros Hgap Hj i Hi.
  assert (∀ d, d + i ≤ j → is_Some (v !! (SVC_NAME, chunk_account account (j - d))))
    as Hdown.
  { induction d as [|d IH]; intros Hd.
    - by rewrite Nat.sub_0_r.
    - apply Hgap; [lia |]. replace (S (j - S d)) with (j - d) by lia. apply IH. lia. }
  replace i with (j - (j - i)) by lia. apply Hdown. lia.
Qed.

Lemma load_services_returns_not_win32 (platform : string) (fuel : nat)
    (account : string) (services : list string) (secValue : option string)
    (v : Vault) :
  win32 platform = false →
  ∃ r, load_services platform fuel account services secValue v = Ret r v.
Proof.
  intros Hwin. revert secValue; induction services as [|s services IH]; intros secValue.
  - by eexists.
  - cbn [load_services]. unfold mbind, M_bind.
    rewrite loadHelper_run, getCredentialsHelper_not_win32 by done.
    destruct (v !! (s, account)) as [x|]; [by eexists |].
    cbv zeta.
    match goal with |- context [Ret ?r v] => destruct r as [y|] end;
      [by eexists | apply IH].
Qed.

(** *** What a write adds *)

Lemma deleteCredentialsHelper_subseteq (platform : string) (fuel : nat) (m : t)
    (account : string) (keepCurrentSvc : option bool) (b : bool) (v v' : Vault) :
  deleteCredentialsHelper platform fuel m account keepCurrentSvc v = Ret b v' → v' ⊆ v.
Proof.
  unfold deleteCredentialsHelper, mbind, M_bind.
  destruct (delete_services (allServices m) account keepCurrentSvc false v)
    as [b1 v1| |] eqn:Hservices; try done.
  apply delete_services_run in Hservices as [Hsub1 _].
  destruct (win32 platform).
  - destruct (delete_chunks fuel account 1 v1) as [n v2| |] eqn:Hchunks; try done.
    apply delete_chunks_run in Hchunks as (Hsub2 & _).
    intros [= _ <-]. by etrans.
  - by intros [= _ <-].
Qed.

Lemma setCredentialsHelper_size (platform : string) (fuel : nat)
    (service account value : string) (v v' : Vault) :
  setCredentialsHelper platform fuel service account value v = Ret tt v' →
  size v' ≤ size v + String.length value + 1.
Proof.
  unfold setCredentialsHelper.
  destruct (win32 platform && _).
  - unfold mbind, M_bind. rewrite kt_deletePassword_run. intros Hrun%set_chunks_size.
    rewrite length_append in Hrun. change (String.length (String NUL "")) with 1 in Hrun.
    assert (delete (service, account) v ⊆ v) as Hsub%map_subseteq_size
      by apply delete_subseteq.
    lia.
  - unfold kt_setPassword, setPassword. intros [= <-].
    pose proof (map_size_insert (service, account) value v) as Hsize.
    destruct (v !! _); unfold id in Hsize; lia.
Qed.

Lemma saveCredentials_size (platform : string) (fuel : nat) (m : t)
    (account value : string) (v v' : Vault) :
  saveCredentials platform fuel m account value v = Ret tt v' →
  size v' ≤ size v + String.length value + 1.
Proof.
  unfold saveCredentials, checkForKeytar, mbind, M_bind.
  destruct (keytar m); [| by destruct (loadError m)].
  cbn [mret M_ret].
  destruct (deleteCredentialsHelper platform fuel m account (Some true) v)
    as [b v1| |] eqn:Hdelete; try done.
  apply deleteCredentialsHelper_subseteq, map_subseteq_size in Hdelete.
  intros Hset%setCredentialsHelper_size. lia.
Qed.

(** *** Reading from two vaults that agree on the entries read *)

Lemma getCredentialsHelper_ext (platform : string) (fuel : nat)
    (service account : string) (r : option string) (v1 v2 : Vault) :
  v2 !! (service, account) = v1 !! (service, account) →
  (∀ j, 1 ≤ j →
        v2 !! (service, chunk_account account j) =
          v1 !! (service, chunk_account account j)) →
  getCredentialsHelper platform fuel service account v1 = Ret r v1 →
  getCredentialsHelper platform fuel service account v2 = Ret r v2.
Proof.
  intros Hsingle Hchunks. rewrite !getCredentialsHelper_run, Hsingle.
  destruct (v1 !! (service, account)); [by intros [= <-] |].
  destruct (win32 platform); [| by intros [= <-]].
  destruct (get_chunks fuel service account 1 None v1) as [r1 v1'| |] eqn:Hget; try done.
  intros [= <- _]. by rewrite (get_chunks_ext _ _ _ _ _ _ _ _ _ Hchunks Hget).
Qed.

(** *** The entry kept by a deletion that spares the current service *)

Lemma delete_services_keeps (services : list string) (account : string)
    (wasDeleted b : bool) (v v' : Vault) :
  delete_services services account (Some true) wasDeleted v = Ret b v' →
  v' !! (SVC_NAME, account) = v !! (SVC_NAME, account).
Proof.
  revert wasDeleted v; induction services as [|s services IH]; intros wasDeleted v.
  - by intros [= _ <-].
  - cbn [delete_services].
    change (default false (Some true)) with true.
    destruct (String.eqb_spec s SVC_NAME) as [-> | Hne]; cbn [andb]; [apply IH |].
    unfold mbind, M_bind. rewrite kt_deletePassword_run. intros Hrun%IH.
    rewrite Hrun. apply lookup_delete_ne. by intros [= ?].
Qed.

Lemma deleteCredentialsHelper_keeps (platform : string) (fuel : nat) (m : t)
    (account : string) (b : bool) (v v' : Vault) :
  deleteCredentialsHelper platform fuel m account (Some true) v = Ret b v' →
  v' !! (SVC_NAME, account) = v !! (SVC_NAME, account).
Proof.
  unfold deleteCredentialsHelper, mbind, M_bind.
  destruct (delete_services (allServices m) account (Some true) false v)
    as [b1 v1| |] eqn:Hservices; try done.
  apply delete_services_keeps in Hservices as <-.
  destruct (win32 platform); [| by intros [= _ <-]].
  destruct (delete_chunks fuel account 1 v1) as [n v2| |] eqn:Hchunks; try done.
  intros [= _ <-]. apply (delete_chunks_touches _ _ _ _ _ _ _ Hchunks).
  intros j _ [= Heq]. symmetry in Heq. by apply chunk_account_ne in Heq.
Qed.

(** *** Which entries a write can touch *)


End CredentialExtraFacts.

(** ** The credential manager: main results *)
Module CredentialTheorems.
Import JsString JsStringFacts DefaultCredentialManager CredentialFacts.
Import CredentialExtraFacts.
#[local] Arguments WIN32_CRED_MAX_STRING_LENGTH : simpl never.

(** C10, as amended. For every vault, the reassembly loop of
    [getCredentialsHelper] terminates when the unbroken run of chunk entries
    account-1, account-2, ... is empty or contains a chunk ending with the
    terminator. More precisely it terminates if and only if there is no entry
    account-1 or some entry account-i, with [1 <= i] and whether or not the
    entries before it are all present, ends with the terminator; in every other
    vault it runs out of any amount of fuel. *)
Theorem chunk_loop_termination (v : Vault) (service account : string) :
  (run_reaches_terminator v service account → loop_terminates v service account) ∧
  (loop_terminates v service account ↔
     v !! (service, chunk_account account 1) = None ∨
     terminator_from v service account 1) ∧
  (¬ loop_terminates v service account →
     ∀ fuel, get_chunks fuel service account 1 None v = Diverge).
Proof.
  assert (v !! (service, chunk_account account 1) = None ∨
          terminator_from v service account 1 → loop_terminates v service account)
    as Hsuff.
  { intros [Hnone | (i & c & Hi & Hc & Hend)].
    - exists 1, None. by rewrite get_chunks_step, Hnone.
    - replace i with (1 + (i - 1)) in Hc by lia.
      destruct (get_chunks_reaches _ _ _ _ None _ _ Hc Hend) as [r Hr].
      by exists (S (i - 1)), r. }
  split; [| split].
  - intros [Hnone | (n & c & Hn & _ & Hc & Hend)]; apply Hsuff; [by left | right].
    by exists n, c.
  - split; [| done]. intros (fuel & r & Hrun).
    apply get_chunks_returns_inv in Hrun as [(_ & Hnone & _) | Hterm]; [by left | by right | done].
  - intros Hnot fuel.
    destruct (get_chunks_outcome fuel service account 1 None v) as [Hd | [r Hr]]; [done |].
    destruct Hnot. by exists fuel, r.
Qed.

Lemma chunk_loop_termination_witness :
  let v : Vault := <[("Zowe", "acct-1") := "ab"]>
                     {[ ("Zowe", "acct-2") := String "c" (String NUL "") ]} in
  run_reaches_terminator v "Zowe" "acct" ∧ loop_terminates v "Zowe" "acct".
Proof.
  intros v.
  assert (run_reaches_terminator v "Zowe" "acct") as Hrun.
  { right. exists 2, (String "c" (String NUL "")).
    split; [lia |]. split; [| split; vm_compute; reflexivity].
    intros j Hj. assert (j = 1 ∨ j = 2) as [-> | ->] by lia; vm_compute; eauto. }
  split; [done |].
  by apply (proj1 (chunk_loop_termination v "Zowe" "acct")).
Defined.

Lemma chunk_loop_gap_counterexample :
  let v : Vault := <[("Zowe", "acct-1") := "abc"]>
                     (<[("Zowe", "acct-3") := String "x" (String NUL "")]> ∅) in
  ¬ run_reaches_terminator v "Zowe" "acct" ∧ loop_terminates v "Zowe" "acct".
Proof.
  intros v. split.
  - intros [Hnone | (n & c & Hn & Hrun & Hc & Hend)].
    + vm_compute in Hnone. discriminate.
    + destruct (decide (n = 1)) as [-> | Hne].
      * vm_compute in Hc. injection Hc as <-. vm_compute in Hend. discriminate.
      * destruct (Hrun 2) as [x Hx]; [lia |]. vm_compute in Hx. discriminate.
  - exists 3, (Some (String "a" (String "b" (String "c" (String "x" (String NUL "")))))).
    vm_compute. reflexivity.
Qed.

(** C1, as amended. On Windows, for every value longer than
    [WIN32_CRED_MAX_STRING_LENGTH] that has no NUL character at a position
    [k * WIN32_CRED_MAX_STRING_LENGTH - 1] (the last position of a full slice),
    [saveCredentials] removes the single entry and writes the value, followed by
    the terminator, into the numbered entries account-1, account-2, ..., and
    [loadCredentials] of the same account then returns exactly the value, the
    terminator stripped. *)
Theorem long_value_roundtrip (svc dn account value : string) (v : Vault) (fuel : nat) :
  let m := initialize (constructor svc dn) Imported in
  WIN32_CRED_MAX_STRING_LENGTH < String.length value →
  (∀ k, 0 < k → k * WIN32_CRED_MAX_STRING_LENGTH ≤ String.length value →
        String.get (k * WIN32_CRED_MAX_STRING_LENGTH - 1) value ≠ Some NUL) →
  size v + String.length value + 1 < fuel →
  ∃ v', saveCredentials "win32" fuel m account value v = Ret tt v' ∧
    v' !! (svc, account) = None ∧
    (∀ i, i * WIN32_CRED_MAX_STRING_LENGTH ≤ String.length value →
          v' !! (svc, chunk_account account (S i)) =
            Some (slice_to WIN32_CRED_MAX_STRING_LENGTH
                    (slice_from (i * WIN32_CRED_MAX_STRING_LENGTH)
                       (value +:+ String NUL "")))) ∧
    loadCredentials "win32" fuel m account None v' = Ret (Some value) v'.
Proof.
  intros m Hlong Hclean Hfuel.
  rewrite saveCredentials_run by done.
  destruct (deleteCredentialsHelper_spec "win32" fuel m account (Some true) v)
    as (b & v1 & -> & Hsub & _); [lia |].
  destruct (setCredentialsHelper_terminates "win32" fuel svc account value v1)
    as [v' Hset]; [lia |].
  exists v'. split; [done |].
  destruct (setCredentialsHelper_long _ _ _ _ _ _ _ win32_win32 Hlong Hset)
    as [Hchunks Hdirect].
  split; [done |]. split.
  - intros i Hi. apply (set_chunks_entries _ _ _ _ _ _ _ i Hchunks).
    rewrite length_append. simpl. lia.
  - rewrite loadCredentials_run by done.
    change (allServices m) with
      ([svc] ++ (if negb (String.eqb svc SVC_NAME) then [SVC_NAME] else []) ++
       ["@zowe/cli"; "Zowe-Plugin"; "Broadcom-Plugin"]).
    cbn [app load_services]. unfold mbind, M_bind.
    rewrite loadHelper_run, getCredentialsHelper_run, Hdirect, win32_win32.
    rewrite (get_chunks_set_chunks _ fuel _ _ _ _ None _ _ Hchunks).
    + change (default "" None +:+ ?x) with x. cbn [fmap option_fmap option_map].
      rewrite strip_trailing_nul_app.
      destruct value as [|c value]; [simpl in Hlong; lia | done].
    + by destruct value.
    + by rewrite endsWith_app.
    + by apply cut_cleanly_terminated.
    + rewrite length_append. simpl. lia.
Qed.

Lemma length_repeat_char (n : nat) (c : ascii) : String.length (repeat_char n c) = n.
Proof. induction n as [|n IH]; simpl; [done | by rewrite IH]. Qed.

Lemma get_repeat_char (n i : nat) (c x : ascii) :
  String.get i (repeat_char n c) = Some x → x = c.
Proof.
  revert i; induction n as [|n IH]; intros i; simpl; [done |].
  destruct i as [|i]; [congruence | apply IH].
Qed.

Lemma long_value_roundtrip_witness :
  ∃ v', saveCredentials "win32" 2600 (initialize (constructor "Zowe" "") Imported)
          "acct" (repeat_char 2561 "a") ∅ = Ret tt v' ∧
    v' !! ("Zowe", "acct") = None ∧
    (∀ i, i * WIN32_CRED_MAX_STRING_LENGTH ≤ String.length (repeat_char 2561 "a") →
          v' !! ("Zowe", chunk_account "acct" (S i)) =
            Some (slice_to WIN32_CRED_MAX_STRING_LENGTH
                    (slice_from (i * WIN32_CRED_MAX_STRING_LENGTH)
                       (repeat_char 2561 "a" +:+ String NUL "")))) ∧
    loadCredentials "win32" 2600 (initialize (constructor "Zowe" "") Imported)
      "acct" None v' = Ret (Some (repeat_char 2561 "a")) v'.
Proof.
  apply (long_value_roundtrip "Zowe" "" "acct" (repeat_char 2561 "a") ∅ 2600).
  - rewrite length_repeat_char. unfold WIN32_CRED_MAX_STRING_LENGTH. lia.
  - intros k _ _ H. apply get_repeat_char in H. discriminate.
  - rewrite length_repeat_char, map_size_empty. lia.
Defined.

Lemma long_value_roundtrip_counterexample :
  let m := initialize (constructor "Zowe" "") Imported in
  let value := repeat_char 2559 "a" +:+ String NUL "b" in
  WIN32_CRED_MAX_STRING_LENGTH < String.length value ∧
  ∃ v', saveCredentials "win32" 10 m "acct" value ∅ = Ret tt v' ∧
        loadCredentials "win32" 10 m "acct" None v' = Ret (Some (repeat_char 2559 "a")) v' ∧
        repeat_char 2559 "a" ≠ value.
Proof.
  intros m value. split.
  - unfold value. rewrite length_append, length_repeat_char.
    unfold WIN32_CRED_MAX_STRING_LENGTH. simpl. lia.
  - eexists. split; [vm_compute; reflexivity |]. split; [vm_compute; reflexivity |].
    intros H. apply (f_equal String.length) in H.
    unfold value in H. rewrite length_append, length_repeat_char in H. simpl in H. lia.
Qed.

(** With a service name of its own the manager also consults the built-in
    name, right after its own. *)
Lemma custom_services (svc dn : string) (o : import_outcome) :
  svc ≠ SVC_NAME →
  allServices (initialize (constructor svc dn) o) =
    [svc; SVC_NAME; "@zowe/cli"; "Zowe-Plugin"; "Broadcom-Plugin"].
Proof.
  intros Hne%String.eqb_neq. destruct o; cbn [initialize constructor allServices];
    by rewrite Hne.
Qed.

(** The legacy retries of [loadHelper]: after a miss on the account itself, an
    account ending with _username is looked up under the name [replace] gives
    it, and likewise for _pass. *)
Lemma loadHelper_retries_username (platform : string) (fuel : nat)
    (account service x : string) (v : Vault) :
  getCredentialsHelper platform fuel service account v = Ret None v →
  endsWith account "_username" = true →
  v !! (service, replace account "_username" "_user") = Some x →
  loadHelper platform fuel account service v = Ret (Some x) v.
Proof. intros Hmiss Hends Hx. by rewrite loadHelper_run, Hmiss, Hends, Hx. Qed.

Lemma loadHelper_retries_pass (platform : string) (fuel : nat)
    (account service x : string) (v : Vault) :
  getCredentialsHelper platform fuel service account v = Ret None v →
  endsWith account "_username" = false →
  endsWith account "_pass" = true →
  v !! (service, replace account "_pass" "_password") = Some x →
  loadHelper platform fuel account service v = Ret (Some x) v.
Proof.
  intros Hmiss Hu Hends Hx. by rewrite loadHelper_run, Hmiss, Hu, Hends, Hx.
Qed.

(** A save creates or changes entries only under the account itself or under
    its numbered chunk names, never under another account name. *)
Lemma saveCredentials_touches_account_only (platform : string) (fuel : nat) (m : t)
    (account value s a : string) (v v' : Vault) :
  saveCredentials platform fuel m account value v = Ret tt v' →
  a ≠ account → (∀ j, a ≠ chunk_account account j) →
  v' !! (s, a) = v !! (s, a).
Proof.
  unfold saveCredentials, checkForKeytar, mbind, M_bind.
  destruct (keytar m); [| by destruct (loadError m)].
  cbn [mret M_ret]. intros Hrun Ha Hchunk.
  assert (∀ v0 b v1, deleteCredentialsHelper platform fuel m account (Some true) v0
            = Ret b v1 → v1 !! (s, a) = v0 !! (s, a)) as Hdel.
  { clear Hrun. intros v0 b v1. unfold deleteCredentialsHelper, mbind, M_bind.
    destruct (delete_services_spec (allServices m) account (Some true) false v0)
      as (b1 & v2 & -> & _ & Hother & _).
    assert (v2 !! (s, a) = v0 !! (s, a)) as <-.
    { apply Hother. intros s' _ [= _ ?]. done. }
    destruct (win32 platform); [| by intros [= _ <-]].
    assert (∀ fuel' i v3 n v4, delete_chunks fuel' account i v3 = Ret n v4 →
              v4 !! (s, a) = v3 !! (s, a)) as Hloop.
    { induction fuel' as [|fuel' IH]; intros i v3 n v4; [done |].
      cbn [delete_chunks]. unfold mbind, M_bind. rewrite kt_deletePassword_run.
      destruct (bool_decide _).
      - intros H%IH. rewrite H. apply lookup_delete_ne. intros [= _ ?].
        by apply (Hchunk i).
      - intros [= _ <-]. apply lookup_delete_ne. intros [= _ ?].
        by apply (Hchunk i). }
    destruct (delete_chunks fuel account 1 v2) as [n v4| |] eqn:Hchunks; try done.
    intros [= _ <-]. by apply (Hloop _ _ _ _ _ Hchunks). }
  destruct (deleteCredentialsHelper platform fuel m account (Some true) v)
    as [b v1| |] eqn:Hd; try done.
  rewrite <- (Hdel _ _ _ Hd). clear Hd Hdel.
  unfold setCredentialsHelper in Hrun. destruct (win32 platform && _).
  - unfold mbind, M_bind in Hrun. rewrite kt_deletePassword_run in Hrun.
    rewrite (set_chunks_other _ _ _ _ _ _ _ _ Hrun).
    + apply lookup_delete_ne. intros [= _ ?]. done.
    + intros j _ [= _ ?]. by apply (Hchunk j).
  - injection Hrun as <-. apply lookup_insert_ne. intros [= _ ?]. done.
Qed.

Lemma default_services (dn : string) (o : import_outcome) :
  allServices (initialize (constructor SVC_NAME dn) o) =
    [SVC_NAME; "@zowe/cli"; "Zowe-Plugin"; "Broadcom-Plugin"].
Proof. by destruct o. Qed.




(** C4. The built-in manager consults the services Zowe, @zowe/cli,
    Zowe-Plugin, Broadcom-Plugin in that order: when the lookup of every service
    before [s] in the list finds nothing and the lookup of [s] finds [x],
    [loadCredentials] returns [x]. *)
Theorem load_first_service_hit (platform dn account : string) (optional : option bool)
    (fuel : nat) (v : Vault) (pre post : list string) (s x : string) :
  let m := initialize (constructor SVC_NAME dn) Imported in
  allServices m = pre ++ s :: post →
  (∀ s', s' ∈ pre → loadHelper platform fuel account s' v = Ret None v) →
  loadHelper platform fuel account s v = Ret (Some x) v →
  allServices m = [SVC_NAME; "@zowe/cli"; "Zowe-Plugin"; "Broadcom-Plugin"] ∧
  loadCredentials platform fuel m account optional v = Ret (Some x) v.
Proof.
  intros m Hsplit Hpre Hs. split; [done |].
  rewrite loadCredentials_run by done.
  by rewrite Hsplit, (load_services_first_hit _ _ _ _ _ _ x _ _ Hpre Hs).
Qed.

Lemma load_first_service_hit_witness :
  let m := initialize (constructor SVC_NAME "") Imported in
  let v : Vault :=
    <[("Zowe-Plugin", "acct") := "mine"]> {[ ("Broadcom-Plugin", "acct") := "other" ]} in
  allServices m = [SVC_NAME; "@zowe/cli"; "Zowe-Plugin"; "Broadcom-Plugin"] ∧
  loadCredentials "darwin" 1 m "acct" None v = Ret (Some "mine") v.
Proof.
  apply (load_first_service_hit "darwin" "" "acct" None 1 _
           ["Zowe"; "@zowe/cli"] ["Broadcom-Plugin"] "Zowe-Plugin" "mine").
  - reflexivity.
  - intros s' Hs'. apply elem_of_cons in Hs' as [-> | Hs']; [vm_compute; reflexivity |].
    apply elem_of_cons in Hs' as [-> | Hs']; [vm_compute; reflexivity |].
    by apply elem_of_nil in Hs'.
  - vm_compute. reflexivity.
Defined.

(** C5. When [initialize] cannot bind keytar it returns normally with the
    failure recorded in [loadError], and every later load, save or delete throws
    that recorded error, which carries the original cause, and leaves the vault
    as it was. *)
Theorem failed_initialize_is_recorded (platform svc dn cause account value : string)
    (optional : option bool) (fuel : nat) (v : Vault) :
  let m := initialize (constructor svc dn) (ImportFailed cause) in
  ∃ e, loadError m = Some e ∧ causeErrors e = Some cause ∧
    loadCredentials platform fuel m account optional v = Throw e v ∧
    saveCredentials platform fuel m account value v = Throw e v ∧
    deleteCredentials platform fuel m account v = Throw e v.
Proof. intros m. eexists. repeat split; reflexivity. Qed.

(** C6. With keytar bound, a load that is not marked optional throws the
    error with the message "Unable to load credentials.", no cause, the report
    not suppressed and the list of services and the account as details,
    exactly when no service of the list has a value for the account, and it
    throws nothing else; an optional load returns null in that case and never
    throws. The message tells this error from the two errors of an unbound
    keytar. *)
Theorem required_load_fails_iff_absent (platform account : string) (m : t)
    (optional : option bool) (fuel : nat) (v : Vault) :
  let not_found :=
    {| msg := "Unable to load credentials.";
       causeErrors := None;
       additionalDetails := Some (getMissingEntryMessage m account);
       suppressReport := false |} in
  keytar m = true → 1 ≤ fuel → optional ≠ Some true →
  (loadCredentials platform fuel m account optional v = Throw not_found v ↔
   ∀ s, s ∈ allServices m → no_entry platform v s account) ∧
  (∀ e v', loadCredentials platform fuel m account optional v = Throw e v' →
           e = not_found ∧ v' = v) ∧
  ((∀ s, s ∈ allServices m → no_entry platform v s account) →
   loadCredentials platform fuel m account (Some true) v = Ret None v) ∧
  (∀ e v', loadCredentials platform fuel m account (Some true) v ≠ Throw e v') ∧
  msg unknown_cause_error ≠ msg not_found ∧
  (∀ m0 cause e, loadError (initialize m0 (ImportFailed cause)) = Some e →
                 msg e ≠ msg not_found) ∧
  (∀ m0 e v', keytar m0 = false →
              loadError m0 = None ∨
                (∃ m1 cause, m0 = initialize m1 (ImportFailed cause)) →
              loadCredentials platform fuel m0 account optional v = Throw e v' →
              msg e ≠ msg not_found).
Proof.
  intros not_found Hk Hfuel Hreq.
  change not_found with (missing_entry_error m account). clear not_found.
  assert (default false optional = false) as Hopt.
  { destruct optional as [[]|]; done. }
  assert ((∀ s, s ∈ allServices m → no_entry platform v s account) ↔
          load_services platform fuel account (allServices m) None v = Ret None v)
    as Habsent.
  { rewrite load_services_null. split; intros H s Hs.
    - apply loadHelper_null; auto.
    - apply (loadHelper_null platform fuel); auto. }
  assert (msg unknown_cause_error ≠ msg (missing_entry_error m account) ∧
          (∀ m0 cause e, loadError (initialize m0 (ImportFailed cause)) = Some e →
                         msg e ≠ msg (missing_entry_error m account)) ∧
          (∀ m0 e v', keytar m0 = false →
              loadError m0 = None ∨
                (∃ m1 cause, m0 = initialize m1 (ImportFailed cause)) →
              loadCredentials platform fuel m0 account optional v = Throw e v' →
              msg e ≠ msg (missing_entry_error m account))) as Hother.
  { split; [done |]. split; [by intros m0 cause e [= <-] |].
    intros m0 e v' Hunbound Hm0.
    unfold loadCredentials, checkForKeytar, mbind, M_bind. rewrite Hunbound.
    destruct Hm0 as [-> | (m1 & cause & ->)]; by intros [= <- _]. }
  rewrite !loadCredentials_run by done. rewrite Hopt, Habsent. simpl default.
  destruct (load_services_outcome platform fuel account (allServices m) None v)
    as [-> | [r ->]].
  { repeat split; try done; apply Hother. }
  destruct r as [x|]; [repeat split; try done; apply Hother |].
  split; [done |]. split; [| split; [done | split; [done | exact Hother]]].
  by intros e v' [= <- <-].
Qed.

Lemma required_load_fails_iff_absent_witness :
  let m := initialize (constructor SVC_NAME "") Imported in
  loadCredentials "linux" 1 m "acct" None ∅ =
    Throw {| msg := "Unable to load credentials.";
             causeErrors := None;
             additionalDetails := Some (getMissingEntryMessage m "acct");
             suppressReport := false |} ∅ ∧
  loadCredentials "linux" 1 m "acct" (Some true) ∅ = Ret None ∅.
Proof.
  intros m.
  destruct (required_load_fails_iff_absent "linux" "acct" m None 1 ∅)
    as (Hiff & _ & Hopt & _); [done | lia | done |].
  assert (∀ s, s ∈ allServices m → no_entry "linux" ∅ s "acct") as Habsent.
  { intros s _. repeat split; intros; apply lookup_empty. }
  split; [by apply Hiff | by apply Hopt].
Defined.



(** C9, evaluated at an account in which the deprecated suffix occurs twice.
    The account ends with _username, the retry name computed by
    [account.replace] is the one with the first occurrence rewritten, so a value
    stored under the name with the suffix rewritten is missed, while a value
    stored under the name with the first occurrence rewritten is returned. *)
Theorem legacy_retry_rewrites_first_occurrence :
  let m := initialize (constructor SVC_NAME "") Imported in
  let account := "zosmf_my_username_username" in
  let v : Vault := {[ (SVC_NAME, "zosmf_my_username_user") := "ibmuser" ]} in
  endsWith account "_username" = true ∧
  replace account "_username" "_user" = "zosmf_my_user_username" ∧
  loadCredentials "linux" 1 m account (Some true) v = Ret None v ∧
  loadCredentials "linux" 1 m account (Some true)
    (<[(SVC_NAME, "zosmf_my_user_username") := "other"]> v)
    = Ret (Some "other") (<[(SVC_NAME, "zosmf_my_user_username") := "other"]> v).
Proof. repeat split; vm_compute; reflexivity. Qed.

End CredentialTheorems.

(** ** Facts about the config model *)
Module ConfigFacts.
Import Config.

Section Fields.
Context {A : Type}.
Implicit Types fields hi lo : list (string * A).

Lemma field_get_set_eq (k : string) (x : A) fields :
  field_get k (field_set k x fields) = Some x.
Proof.
  induction fields as [|[k' y] fields IH]; simpl.
  - by rewrite String.eqb_refl.
  - destruct (String.eqb k k') eqn:Hk; simpl; rewrite ?String.eqb_refl, ?Hk; done.
Qed.

Lemma field_get_set_ne (k k' : string) (x : A) fields :
  k ≠ k' → field_get k (field_set k' x fields) = field_get k fields.
Proof.
  intros Hne. induction fields as [|[k'' y] fields IH]; simpl.
  - by apply String.eqb_neq in Hne as ->.
  - destruct (String.eqb_spec k' k'') as [<- | Hne']; simpl.
    + by apply String.eqb_neq in Hne as ->.
    + by rewrite IH.
Qed.

Lemma field_get_app (k : string) hi lo :
  field_get k (hi ++ lo) =
    match field_get k hi with Some x => Some x | None => field_get k lo end.
Proof.
  induction hi as [|[k' y] hi IH]; simpl; [done |].
  by destruct (String.eqb k k').
Qed.

Lemma field_get_filter_fresh (k : string) hi lo :
  field_get k hi = None →
  field_get k (filter (λ kv, has_key kv.1 hi = false) lo) = field_get k lo.
Proof.
  intros Hk. induction lo as [|[k' y] lo IH]; [done |].
  rewrite filter_cons. simpl. destruct (String.eqb_spec k k') as [<- | Hne].
  - unfold has_key. rewrite Hk. rewrite decide_True by done. simpl.
    by rewrite String.eqb_refl.
  - case_decide; simpl; [| done].
    by apply String.eqb_neq in Hne as ->.
Qed.

Lemma field_get_merge_shallow (k : string) hi lo :
  field_get k (merge_shallow hi lo) =
    match field_get k hi with Some x => Some x | None => field_get k lo end.
Proof.
  unfold merge_shallow. rewrite field_get_app.
  destruct (field_get k hi) eqn:Hk; [done |]. by apply field_get_filter_fresh.
Qed.

End Fields.

Lemma first_defined_cons {A} (x : option A) (xs : list (option A)) :
  first_defined (x :: xs) = match x with Some y => Some y | None => first_defined xs end.
Proof. by destruct x. Qed.

(** *** Merge of profile trees *)

Lemma node_profiles_merge (hi lo : ProfileNode) :
  node_profiles (merge_node hi lo) = merge_profiles (node_profiles hi) (node_profiles lo).
Proof. by destruct hi, lo. Qed.

Lemma node_props_merge (hi lo : ProfileNode) :
  node_props (merge_node hi lo) = merge_shallow (node_props hi) (node_props lo).
Proof. by destruct hi. Qed.

Lemma field_get_map {A B} (f : string → A → B) (k : string)
    (fields : list (string * A)) :
  field_get k (map (λ kv, (kv.1, f kv.1 kv.2)) fields) = f k <$> field_get k fields.
Proof.
  induction fields as [|[k' y] fields IH]; simpl; [done |].
  destruct (String.eqb_spec k k') as [<- | Hne]; done.
Qed.

Lemma field_get_merge_profiles (name : string) (hi lo : list (string * ProfileNode)) :
  field_get name (merge_profiles hi lo) =
    match field_get name hi, field_get name lo with
    | Some n, Some n' => Some (merge_node n n')
    | Some n, None => Some n
    | None, other => other
    end.
Proof.
  unfold merge_profiles. cbn [merge_node node_profiles].
  rewrite field_get_app.
  rewrite (field_get_map
    (λ k n, match field_get k lo with Some n' => merge_node n n' | None => n end)).
  destruct (field_get name hi) as [n|] eqn:Hhi; simpl.
  - by destruct (field_get name lo).
  - by apply field_get_filter_fresh.
Qed.

Lemma find_node_merge (names : list string) (hi lo : list (string * ProfileNode)) :
  find_node names (merge_profiles hi lo) =
    match find_node names hi, find_node names lo with
    | Some n, Some n' => Some (merge_node n n')
    | Some n, None => Some n
    | None, other => other
    end.
Proof.
  revert hi lo; induction names as [|name names IH]; intros hi lo; [done |].
  destruct names as [|name' names].
  - apply field_get_merge_profiles.
  - change (find_node (name :: name' :: names) ?ps) with
      (match field_get name ps with
       | Some n => find_node (name' :: names) (node_profiles n)
       | None => None
       end).
    rewrite field_get_merge_profiles.
    destruct (field_get name hi) as [n|], (field_get name lo) as [n'|]; try done.
    + by rewrite node_profiles_merge, IH.
    + by destruct (find_node _ _).
Qed.

Lemma lookup_property_merge (names : list string) (key : string)
    (hi lo : list (string * ProfileNode)) :
  lookup_property names key (merge_profiles hi lo) =
    match lookup_property names key hi with
    | Some x => Some x
    | None => lookup_property names key lo
    end.
Proof.
  unfold lookup_property. rewrite find_node_merge.
  destruct (find_node names hi) as [n|], (find_node names lo) as [n'|]; try done.
  - by rewrite node_props_merge, field_get_merge_shallow.
  - by destruct (field_get key (node_props n)).
Qed.

Lemma lookup_property_nil (names : list string) (key : string) :
  lookup_property names key [] = None.
Proof. unfold lookup_property. by destruct names as [|? [|? ?]]. Qed.

Lemma lookup_property_layers (names : list string) (key : string)
    (ls : list ConfigLayer) :
  lookup_property names key
    (foldr (λ l acc, merge_profiles (profiles_of (properties l)) acc) [] ls) =
  first_defined (map (λ l, lookup_property names key (profiles_of (properties l))) ls).
Proof.
  induction ls as [|l ls IH]; simpl.
  - apply lookup_property_nil.
  - rewrite lookup_property_merge, IH. by destruct (lookup_property _ _ _).
Qed.

Lemma defaults_layers (k : string) (ls : list ConfigLayer) :
  field_get k
    (foldr (λ l acc, merge_shallow (object_of (properties l) "defaults") acc) [] ls) =
  first_defined (map (λ l, field_get k (object_of (properties l) "defaults")) ls).
Proof.
  induction ls as [|l ls IH]; simpl; [done |].
  rewrite field_get_merge_shallow, IH. by destruct (field_get _ _).
Qed.

(** *** The typed view and the JSON paths *)

Lemma get_path_app (p q : list string) (doc : value) :
  get_path (p ++ q) doc =
    match get_path p doc with Some x => get_path q x | None => None end.
Proof.
  revert doc; induction p as [|k p IH]; intros doc; simpl; [done |].
  destruct doc; try done. destruct (field_get k fields); [apply IH | done].
Qed.

Lemma node_profiles_decode (fields : list (string * value)) :
  node_profiles (decode_node (VObj fields)) =
    match field_get "profiles" fields with
    | Some (VObj cs) => map (λ kv, (kv.1, decode_node kv.2)) cs
    | _ => []
    end.
Proof.
  cbn [decode_node node_profiles].
  induction fields as [|[k c] fields IH]; [done |].
  cbn [field_get]. by destruct (String.eqb "profiles" k).
Qed.

Lemma field_get_decode_profiles (name : string) (x : value) :
  field_get name (node_profiles (decode_node x)) =
    decode_node <$> get_path ["profiles"; name] x.
Proof.
  destruct x as [| | | | |fields]; try done.
  rewrite node_profiles_decode. cbn [get_path].
  destruct (field_get "profiles" fields) as [[| | | | |cs]|]; try done.
  rewrite (field_get_map (λ _ v, decode_node v)).
  by destruct (field_get name cs).
Qed.

Lemma field_get_decode_props (key : string) (x : value) :
  field_get key (node_props (decode_node x)) = get_path ["properties"; key] x.
Proof.
  destruct x as [| | | | |fields]; try done.
  cbn [decode_node node_props get_path].
  destruct (field_get "properties" fields) as [[| | | | |ps]|]; try done.
  by destruct (field_get key ps).
Qed.

Lemma lookup_property_decode (names : list string) (key : string) (x : value) :
  names ≠ [] →
  lookup_property names key (node_profiles (decode_node x)) =
    get_path (property_path names key) x.
Proof.
  unfold lookup_property, property_path.
  revert x; induction names as [|name names IH]; intros x Hne; [done |].
  change (flat_map (λ n, ["profiles"; n]) (name :: names) ++ ["properties"; key])
    with (["profiles"; name] ++
          (flat_map (λ n, ["profiles"; n]) names ++ ["properties"; key])).
  rewrite get_path_app.
  destruct names as [|name' names].
  - cbn [find_node]. rewrite field_get_decode_profiles.
    destruct (get_path ["profiles"; name] x) as [child|]; [| done].
    apply field_get_decode_props.
  - change (find_node (name :: name' :: names) ?ps) with
      (match field_get name ps with
       | Some n => find_node (name' :: names) (node_profiles n)
       | None => None
       end).
    rewrite field_get_decode_profiles.
    destruct (get_path ["profiles"; name] x) as [child|]; [| done].
    by apply IH.
Qed.

Lemma first_defined_lookup {A} (xs : list (option A)) (i : nat) (x : A) :
  xs !! i = Some (Some x) →
  (∀ j y, j < i → xs !! j = Some y → y = None) →
  first_defined xs = Some x.
Proof.
  revert i; induction xs as [|y xs IH]; intros i Hi Hbefore; [done |].
  destruct i as [|i].
  - by injection Hi as ->.
  - rewrite (Hbefore 0 y) by (done || lia). simpl.
    apply (IH i); [done |]. intros j z Hj Hz. apply (Hbefore (S j)); [lia | done].
Qed.

(** *** Dotted-path get and set *)

Lemma split_dotted_nonempty (s : string) : split_dotted s ≠ [].
Proof.
  induction s as [|c s IH]; simpl; [done |].
  destruct (Ascii.eqb c "."); [done |]. by destruct (split_dotted s).
Qed.

Lemma set_path_step (k k' : string) (p : list string) (v doc : value) :
  set_path (k :: k' :: p) v doc =
    let fields := match doc with VObj fields => fields | _ => [] end in
    VObj (field_set k (set_path (k' :: p) v (default (VObj []) (field_get k fields)))
            fields).
Proof. reflexivity. Qed.

Lemma get_path_step (k : string) (p : list string) (fields : list (string * value)) :
  get_path (k :: p) (VObj fields) =
    match field_get k fields with Some c => get_path p c | None => None end.
Proof. reflexivity. Qed.

(** Reading the path just written gives what [set] stores there, for every
    document and every path with at least one segment. *)
Lemma get_set_path (p : list string) (v doc : value) :
  p ≠ [] → get_path p (set_path p v doc) = Some (stored (get_path p doc) v).
Proof.
  revert doc; induction p as [|k p IH]; intros doc Hne; [done |].
  destruct p as [|k' p].
  - cbn [set_path]. rewrite get_path_step, field_get_set_eq. cbn [get_path].
    destruct doc as [| | | | |fields]; try done.
    by destruct (field_get k fields).
  - rewrite set_path_step. cbv zeta.
    rewrite get_path_step, field_get_set_eq, IH by done.
    destruct doc as [| | | | |fields]; try done.
    rewrite get_path_step. by destruct (field_get k fields).
Qed.

(** *** The integer pattern *)

Lemma parse_digits_app (a b : string) (acc : Z) :
  parse_digits (a +:+ b) acc =
    match parse_digits a acc with
    | Some acc' => parse_digits b acc'
    | None => None
    end.
Proof.
  revert acc; induction a as [|c a IH]; intros acc; [done |].
  rewrite JsStringFacts.append_cons. cbn [parse_digits].
  destruct (Ascii.is_nat c); [apply IH | done].
Qed.

Lemma is_nat_pretty_N_char (d : N) :
  (d < 10)%N → Ascii.is_nat (pretty_N_char d) = Some (N.to_nat d).
Proof.
  intros Hd.
  assert (d = 0 ∨ d = 1 ∨ d = 2 ∨ d = 3 ∨ d = 4 ∨ d = 5 ∨ d = 6 ∨ d = 7 ∨ d = 8 ∨ d = 9)%N
    as Hcases by lia.
  repeat destruct Hcases as [-> | Hcases]; try subst d; reflexivity.
Qed.

Lemma pretty_N_go_app (x : N) (s : string) :
  pretty_N_go x s = pretty_N_go x "" +:+ s.
Proof.
  revert s. induction (N.lt_wf_0 x) as [x _ IH]; intros s.
  destruct (decide (x = 0)%N) as [-> | Hx]; [by rewrite !pretty_N_go_0 |].
  assert (x / 10 < x)%N as Hlt by (apply N.div_lt; lia).
  rewrite !(pretty_N_go_step x) by lia.
  rewrite (IH _ Hlt (String _ s)), (IH _ Hlt (String _ "")).
  by rewrite JsStringFacts.append_assoc.
Qed.

Lemma parse_digits_pretty_N_go (x : N) :
  parse_digits (pretty_N_go x "") 0 = Some (Z.of_N x).
Proof.
  induction (N.lt_wf_0 x) as [x _ IH].
  destruct (decide (x = 0)%N) as [-> | Hx]; [by rewrite pretty_N_go_0 |].
  rewrite pretty_N_go_step, pretty_N_go_app by lia.
  rewrite parse_digits_app, IH by (apply N.div_lt; lia).
  cbn [parse_digits].
  rewrite is_nat_pretty_N_char by (apply N.mod_lt; lia).
  f_equal. rewrite N_nat_Z.
  pose proof (N.div_mod x 10). lia.
Qed.

Lemma pretty_N_go_nonempty (x : N) : (0 < x)%N → pretty_N_go x "" ≠ "".
Proof.
  intros Hx Heq. rewrite pretty_N_go_step, pretty_N_go_app in Heq by done.
  by destruct (pretty_N_go (x / 10) "").
Qed.

Lemma first_char_pretty_N_go (x : N) (c : ascii) (s : string) :
  (0 < x)%N → pretty_N_go x "" = String c s → c ≠ "-"%char.
Proof.
  revert c s. induction (N.lt_wf_0 x) as [x _ IH]. intros c s Hx Heq.
  rewrite pretty_N_go_step, pretty_N_go_app in Heq by done.
  destruct (decide (x / 10 = 0)%N) as [Hz | Hnz].
  - rewrite Hz, pretty_N_go_0 in Heq. injection Heq as <- _.
    assert (x mod 10 < 10)%N as Hdigit%is_nat_pretty_N_char by (apply N.mod_lt; lia).
    intros Hminus. by rewrite Hminus in Hdigit.
  - destruct (pretty_N_go (x / 10) "") as [|c' s'] eqn:Hgo.
    { exfalso. apply (pretty_N_go_nonempty (x / 10)); [by apply N.neq_0_lt_0 | done]. }
    rewrite JsStringFacts.append_cons in Heq. injection Heq as <- _.
    apply (IH (x / 10)%N) with s';
      [apply N.div_lt; lia | by apply N.neq_0_lt_0 | done].
Qed.

(** The decimal writing of an integer matches the pattern and is read back as
    that integer. *)
Lemma parse_integer_pretty (z : Z) : parse_integer (pretty z) = Some z.
Proof.
  assert (∀ q : positive, parse_integer (pretty_N_go (N.pos q) "") = Some (Z.pos q))
    as Hpos.
  { intros q. unfold parse_integer.
    destruct (pretty_N_go (N.pos q) "") as [|c s] eqn:Hgo.
    { exfalso. by apply (pretty_N_go_nonempty (N.pos q)). }
    apply first_char_pretty_N_go in Hgo as Hc; [| done].
    apply Ascii.eqb_neq in Hc as ->. rewrite <- Hgo.
    by rewrite parse_digits_pretty_N_go. }
  destruct z as [|q|q]; [done | apply Hpos |].
  change (pretty (Z.neg q)) with ("-" +:+ pretty_N_go (N.pos q) "").
  rewrite JsStringFacts.append_cons, JsStringFacts.append_nil.
  unfold parse_integer. rewrite Ascii.eqb_refl.
  destruct (pretty_N_go (N.pos q) "") as [|c s] eqn:Hgo.
  { by apply pretty_N_go_nonempty in Hgo. }
  rewrite <- Hgo, parse_digits_pretty_N_go. done.
Qed.

Lemma parse_digits_non_digit (s : string) (acc : Z) (i : nat) (c : ascii) :
  String.get i s = Some c → Ascii.is_nat c = None → parse_digits s acc = None.
Proof.
  revert acc i; induction s as [|c' s IH]; intros acc i Hget Hc; [done |].
  cbn [parse_digits]. destruct i as [|i].
  - injection Hget as ->. by rewrite Hc.
  - destruct (Ascii.is_nat c'); [by apply (IH _ i) | done].
Qed.

(** A string with a character that is neither a digit nor a leading minus
    sign does not match the pattern. *)
Lemma parse_integer_non_digit (s : string) (i : nat) (c : ascii) :
  String.get i s = Some c → Ascii.is_nat c = None → (i = 0 → c ≠ "-"%char) →
  parse_integer s = None.
Proof.
  intros Hget Hc Hminus. destruct s as [|c' s]; [done |].
  unfold parse_integer. destruct (Ascii.eqb_spec c' "-") as [-> | Hne].
  - destruct i as [|i].
    + injection Hget as <-. by destruct Hminus.
    + destruct s as [|c'' s]; [done |].
      by rewrite (parse_digits_non_digit _ _ i c).
  - by apply (parse_digits_non_digit _ _ i c).
Qed.

Lemma coerce_integer (s : string) (n : Z) :
  parse_integer s = Some n → coerce (VStr s) = VNum n.
Proof.
  intros Hn. unfold coerce.
  destruct (String.eqb_spec s "true") as [-> | _]; [done |].
  destruct (String.eqb_spec s "false") as [-> | _]; [done |].
  by rewrite Hn.
Qed.

(** *** The layers of a loaded configuration *)

Lemma lookup_property_load_layer (names : list string) (key : string)
    (p : string) (file : option value) :
  names ≠ [] →
  lookup_property names key (profiles_of (properties (load_layer p file))) =
    match file with
    | Some doc => get_path (property_path names key) doc
    | None => None
    end.
Proof.
  intros Hne. destruct file as [doc|]; cbn [load_layer properties].
  - by apply lookup_property_decode.
  - apply lookup_property_nil.
Qed.

Lemma defaults_load_layer (key : string) (p : string) (file : option value) :
  field_get key (object_of (properties (load_layer p file)) "defaults") =
    match file with
    | Some doc => get_path ["defaults"; key] doc
    | None => None
    end.
Proof.
  destruct file as [doc|]; cbn [load_layer properties]; [| done].
  destruct doc as [| | | | |fields]; try done.
  cbn [object_of get_path].
  destruct (field_get "defaults" fields) as [[| | | | |fs]|]; try done.
  by destruct (field_get key fs).
Qed.

Lemma get_path_add_secure (k : string) (p : list string) (d : string) (doc : value) :
  k ≠ "secure" → get_path (k :: p) (add_secure d doc) = get_path (k :: p) doc.
Proof.
  intros Hk. destruct doc as [| | | | |fields]; try done.
  unfold add_secure. destruct (string_in d _); [done |].
  cbn [get_path]. by rewrite field_get_set_ne.
Qed.

End ConfigFacts.

(** ** The config model: main results *)
Module ConfigTheorems.
Import Config ConfigFacts.

(** C2. For every combination of present and absent files, [Config.load]
    builds the four layers in the order project-user, project, global-user,
    global, each with the path and the existence of its file, and the merged
    view gives each profile property the value found at its JSON path in the
    first file, in that order, that is present and defines it; in particular a
    property defined by one file and by no file of higher precedence is
    visible, also when that file is the lowest present one. [defaults]
    resolves in the same order. *)
Theorem merged_view_precedence (files : Files) (names : list string) (key : string) :
  let c := load files in
  let order := [projectUser files; project files; globalUser files; global files] in
  let in_file (p : list string) (file : string * option value) : option value :=
    match file.2 with
    | Some doc => get_path p doc
    | None => None
    end in
  names ≠ [] →
  map (λ l, (path l, exists_ l)) (layers c) =
    map (λ file, (file.1, match file.2 with Some _ => true | None => false end)) order ∧
  lookup_property names key (m_profiles (merged c)) =
    first_defined (map (in_file (property_path names key)) order) ∧
  (∀ i file x, order !! i = Some file →
     in_file (property_path names key) file = Some x →
     (∀ j file', j < i → order !! j = Some file' →
        in_file (property_path names key) file' = None) →
     lookup_property names key (m_profiles (merged c)) = Some x) ∧
  field_get key (m_defaults (merged c)) =
    first_defined (map (in_file ["defaults"; key]) order).
Proof.
  intros c order in_file Hnames.
  assert (layers c = map (λ file, load_layer file.1 file.2) order) as Hlayers by done.
  assert (lookup_property names key (m_profiles (merged c)) =
          first_defined (map (in_file (property_path names key)) order)) as Hmerged.
  { unfold merged. cbn [m_profiles]. rewrite lookup_property_layers, Hlayers.
    rewrite map_map. f_equal. apply map_ext. intros file.
    by apply lookup_property_load_layer. }
  split; [by destruct files as [[? []] [? []] [? []] [? []]] |].
  split; [done |]. split.
  - intros i file x Hfile Hx Hbefore. rewrite Hmerged.
    apply (first_defined_lookup _ i).
    + by rewrite list_lookup_fmap, Hfile, <- Hx.
    + intros j y Hj Hy. rewrite list_lookup_fmap in Hy.
      destruct (order !! j) as [file'|] eqn:Hfile'; [| done].
      injection Hy as <-. by apply (Hbefore j).
  - unfold merged. cbn [m_defaults]. rewrite defaults_layers, Hlayers.
    rewrite map_map. f_equal. apply map_ext. intros file.
    apply defaults_load_layer.
Qed.

Lemma merged_view_precedence_witness :
  let low := VObj [("profiles", VObj [("fruit", VObj [("properties",
                     VObj [("color", VStr "green"); ("origin", VStr "California")])])]);
                   ("defaults", VObj [("fruit", VStr "fruit")])] in
  let high := VObj [("profiles", VObj [("fruit", VObj [("properties",
                     VObj [("color", VStr "red")])])])] in
  let c := load {| projectUser := ("app.config.user.json", None);
                   project := ("app.config.json", Some high);
                   globalUser := ("home/app.config.user.json", None);
                   global := ("home/app.config.json", Some low) |} in
  map exists_ (layers c) = [false; true; false; true] ∧
  lookup_property ["fruit"] "color" (m_profiles (merged c)) = Some (VStr "red") ∧
  lookup_property ["fruit"] "origin" (m_profiles (merged c)) = Some (VStr "California") ∧
  field_get "fruit" (m_defaults (merged c)) = Some (VStr "fruit").
Proof.
  intros low high c. split; [reflexivity |]. split; [| split].
  - destruct (merged_view_precedence
                {| projectUser := ("app.config.user.json", None);
                   project := ("app.config.json", Some high);
                   globalUser := ("home/app.config.user.json", None);
                   global := ("home/app.config.json", Some low) |} ["fruit"] "color")
      as (_ & -> & _); [done | reflexivity].
  - destruct (merged_view_precedence
                {| projectUser := ("app.config.user.json", None);
                   project := ("app.config.json", Some high);
                   globalUser := ("home/app.config.user.json", None);
                   global := ("home/app.config.json", Some low) |} ["fruit"] "origin")
      as (_ & _ & Hfirst & _); [done |].
    apply (Hfirst 3 ("home/app.config.json", Some low)); [done | done |].
    intros j file' Hj Hfile'.
    destruct j as [|[|[|j]]]; [.. | lia]; injection Hfile' as <-; reflexivity.
  - destruct (merged_view_precedence
                {| projectUser := ("app.config.user.json", None);
                   project := ("app.config.json", Some high);
                   globalUser := ("home/app.config.user.json", None);
                   global := ("home/app.config.json", Some low) |} ["fruit"] "fruit")
      as (_ & _ & _ & Hdefaults); [done |].
    etrans; [exact Hdefaults | reflexivity].
Defined.

(** C8, as amended. For every dotted path, [set] changes the active layer
    only and leaves at the path the value [stored current v], [current] being
    what the path held in that layer: the strings true and false become
    booleans, the decimal writing of an integer becomes that number, a string
    with a character that is neither a digit nor a leading minus sign stays a
    string, an array argument replaces the target, a value that is not an
    array is appended, coerced, when the current value is an array, and it
    replaces the current value when that is not an array. *)
Theorem set_stores_coerced (c : t) (layer : ConfigLayer) (dottedPath : string)
    (v : value) (secure : bool) :
  layers c !! activeLayerIndex c = Some layer →
  (secure = true → head (split_dotted dottedPath) ≠ Some "secure") →
  ∃ layer',
    activeLayerIndex (set c dottedPath v secure) = activeLayerIndex c ∧
    layers (set c dottedPath v secure) = <[activeLayerIndex c := layer']> (layers c) ∧
    path layer' = path layer ∧
    get_path (split_dotted dottedPath) (properties layer') =
      Some (stored (get_path (split_dotted dottedPath) (properties layer)) v) ∧
    coerce (VStr "true") = VBool true ∧
    coerce (VStr "false") = VBool false ∧
    (∀ z : Z, coerce (VStr (pretty z)) = VNum z) ∧
    (∀ s n, parse_integer s = Some n → coerce (VStr s) = VNum n) ∧
    (∀ s i ch, s ≠ "true" → s ≠ "false" →
               String.get i s = Some ch → Ascii.is_nat ch = None →
               (i = 0 → ch ≠ "-"%char) →
               coerce (VStr s) = VStr s) ∧
    (∀ s, s ≠ "true" → s ≠ "false" → parse_integer s = None →
          coerce (VStr s) = VStr s) ∧
    (∀ current items, stored current (VArr items) = VArr items) ∧
    (∀ items x, (∀ ys, x ≠ VArr ys) →
                stored (Some (VArr items)) x = VArr (items ++ [coerce x])) ∧
    (∀ current x, (∀ ys, x ≠ VArr ys) → (∀ items, current ≠ Some (VArr items)) →
                  stored current x = coerce x).
Proof.
  intros Hlayer Hsecure.
  set (doc := set_path (split_dotted dottedPath) v (properties layer)).
  exists (with_properties layer (if secure then add_secure dottedPath doc else doc)).
  split; [done |]. split.
  { unfold set. cbn [layers]. rewrite list_insert_alter.
    apply list_alter_ext; [| done]. intros x Hx. by simplify_eq. }
  split; [done |]. split.
  { cbn [with_properties properties].
    assert (get_path (split_dotted dottedPath) doc =
            Some (stored (get_path (split_dotted dottedPath) (properties layer)) v))
      as Hget by (apply get_set_path, split_dotted_nonempty).
    destruct secure; [| done].
    destruct (split_dotted dottedPath) as [|k p] eqn:Hp;
      [by apply split_dotted_nonempty in Hp |].
    rewrite get_path_add_secure; [done |].
    intros ->. by apply Hsecure. }
  assert (∀ s, s ≠ "true" → s ≠ "false" → parse_integer s = None →
               coerce (VStr s) = VStr s) as Hstring.
  { intros s Ht Hf Hn. unfold coerce.
    apply String.eqb_neq in Ht as ->. apply String.eqb_neq in Hf as ->.
    by rewrite Hn. }
  split; [done |]. split; [done |].
  split; [intros z; apply coerce_integer, parse_integer_pretty |].
  split; [apply coerce_integer |].
  split.
  { intros s i ch Ht Hf Hget Hch Hminus. apply Hstring; [done | done |].
    by apply (parse_integer_non_digit s i ch). }
  split; [done |]. split; [done |]. split.
  - intros items x Hx. destruct x as [| | | |ys|]; try done. by destruct (Hx ys).
  - intros current x Hx Hcur.
    destruct x as [| | | |ys|]; try (by destruct (Hx ys));
      destruct current as [[| | | |items|]|]; try done; by destruct (Hcur items).
Qed.

Lemma set_stores_coerced_witness :
  let doc := VObj [("profiles", VObj [("fruit", VObj [("properties", VStr "none")])])] in
  let c := {| layers := [{| path := "app.config.user.json"; exists_ := true;
                            properties := doc |}];
              activeLayerIndex := 0 |} in
  ∃ ripe priced,
    layers (set c "profiles.fruit.profiles.apple.properties.ripe" (VStr "true") false)
      = [ripe] ∧
    get_path ["profiles"; "fruit"; "profiles"; "apple"; "properties"; "ripe"]
      (properties ripe) = Some (VBool true) ∧
    layers (set c "profiles.fruit.properties.price" (VStr "2") false) = [priced] ∧
    get_path ["profiles"; "fruit"; "properties"; "price"] (properties priced)
      = Some (VNum 2).
Proof.
  intros doc c.
  destruct (set_stores_coerced c
              {| path := "app.config.user.json"; exists_ := true; properties := doc |}
              "profiles.fruit.profiles.apple.properties.ripe" (VStr "true") false)
    as (ripe & _ & Hripe & _ & Hget & _); [done | done |].
  destruct (set_stores_coerced c
              {| path := "app.config.user.json"; exists_ := true; properties := doc |}
              "profiles.fruit.properties.price" (VStr "2") false)
    as (priced & _ & Hpriced & _ & Hprice & _ & _ & Hinteger & _); [done | done |].
  exists ripe, priced. split; [done |]. split; [exact Hget |]. split; [done |].
  etrans; [exact Hprice |].
  exact (f_equal Some (Hinteger 2%Z)).
Defined.

Lemma set_scalar_on_array_appends :
  let doc := VObj [("profiles", VObj [("fruit", VObj [("properties",
                VObj [("tags", VArr [])])])])] in
  let c := {| layers := [{| path := "app.config.user.json"; exists_ := true;
                            properties := doc |}];
              activeLayerIndex := 0 |} in
  get_path (split_dotted "profiles.fruit.properties.tags") doc = Some (VArr []) ∧
  ∃ layer',
    layers (set c "profiles.fruit.properties.tags" (VStr "sweet") false) = [layer'] ∧
    get_path (split_dotted "profiles.fruit.properties.tags") (properties layer')
      = Some (VArr [VStr "sweet"]) ∧
    get_path (split_dotted "profiles.fruit.properties.tags") (properties layer')
      ≠ Some (coerce (VStr "sweet")).
Proof.
  intros doc c. split; [reflexivity |].
  eexists. split; [reflexivity |].
  split; [reflexivity | discriminate].
Qed.

End ConfigTheorems.

(** ** The credential manager: further results *)
Module CredentialExtras.
Import JsString JsStringFacts JsStringExtras DefaultCredentialManager CredentialFacts.
Import CredentialProperties CredentialExtraFacts.

#[local] Arguments WIN32_CRED_MAX_STRING_LENGTH : simpl never.

(** The manager's own service is consulted first. *)
Lemma constructor_services (svc dn : string) (o : import_outcome) :
  ∃ rest, allServices (initialize (constructor svc dn) o) = svc :: rest ∧
    SVC_NAME ∈ svc :: rest.
Proof.
  destruct o; simpl; eexists; (split; [reflexivity |]);
    destruct (String.eqb_spec svc SVC_NAME) as [-> | ?]; simpl;
    try (by left); by right; left.
Qed.

(** The deletion pass of any operation returns when given enough fuel on
    Windows, and always elsewhere. *)
Lemma deleteCredentialsHelper_returns (platform : string) (fuel : nat) (m : t)
    (account : string) (keepCurrentSvc : option bool) (v : Vault) :
  (win32 platform = true → size v < fuel) →
  ∃ b v', deleteCredentialsHelper platform fuel m account keepCurrentSvc v = Ret b v' ∧
    v' ⊆ v ∧
    (∀ s, s ∈ allServices m →
          default false keepCurrentSvc && String.eqb s SVC_NAME = false →
          v' !! (s, account) = None) ∧
    (win32 platform = true → v' !! (SVC_NAME, chunk_account account 1) = None).
Proof.
  intros Hfuel. destruct (win32 platform) eqn:Hwin.
  - destruct (deleteCredentialsHelper_spec platform fuel m account keepCurrentSvc v)
      as (b & v' & Hrun & Hsub & Hgone & Hchunks & _); [by apply Hfuel |].
    exists b, v'. split; [done |]. split; [done |]. split; [done |].
    intros _. rewrite Hwin in Hchunks. by destruct Hchunks.
  - destruct (deleteCredentialsHelper_not_win32 platform fuel m account keepCurrentSvc v)
      as (b & v' & Hrun & Hsub & _ & Hgone); [done |].
    exists b, v'. by repeat split.
Qed.

(** X1. A value that fits a single entry (any value outside Windows, a value
    of at most 2560 characters on Windows) is stored by [saveCredentials]
    under the manager's service and the account itself, and every later
    [loadCredentials] of that account returns exactly this value, whatever
    else the vault holds and whether or not the load is optional. *)
Theorem short_value_roundtrip (platform svc dn account value : string) (v : Vault)
    (fuel fuel' : nat) (optional : option bool) :
  let m := initialize (constructor svc dn) Imported in
  win32 platform && (WIN32_CRED_MAX_STRING_LENGTH <? String.length value) = false →
  (win32 platform = true → size v < fuel) →
  ∃ v', saveCredentials platform fuel m account value v = Ret tt v' ∧
    v' !! (svc, account) = Some value ∧
    loadCredentials platform fuel' m account optional v' = Ret (Some value) v'.
Proof.
  intros m Hshort Hfuel.
  destruct (deleteCredentialsHelper_returns platform fuel m account (Some true) v Hfuel)
    as (b & v1 & Hdelete & _).
  exists (<[(svc, account) := value]> v1).
  rewrite saveCredentials_run, Hdelete by done.
  split; [by apply setCredentialsHelper_short |].
  split; [by rewrite lookup_insert_eq |].
  rewrite loadCredentials_run by done.
  destruct (constructor_services svc dn Imported) as (rest & Hservices & _).
  fold m in Hservices. rewrite Hservices. cbn [load_services].
  unfold mbind, M_bind. rewrite loadHelper_run, getCredentialsHelper_run.
  by rewrite lookup_insert_eq.
Qed.

Lemma short_value_roundtrip_witness :
  ∃ v', saveCredentials "win32" 2 (initialize (constructor "Zowe" "") Imported)
          "acct" "secret" {[ ("Zowe", "acct-1") := "stale" ]} = Ret tt v' ∧
    v' !! ("Zowe", "acct") = Some "secret" ∧
    loadCredentials "win32" 0 (initialize (constructor "Zowe" "") Imported)
      "acct" None v' = Ret (Some "secret") v'.
Proof.
  apply (short_value_roundtrip "win32" "Zowe" "" "acct" "secret"
           {[ ("Zowe", "acct-1") := "stale" ]} 2 0 None).
  - reflexivity.
  - intros _. rewrite map_size_singleton. lia.
Defined.

(** What [getCredentialsHelper] reads after a long value was written. *)
Lemma getCredentialsHelper_after_long (platform : string) (fuel fuel' : nat)
    (service account value : string) (v v' : Vault) :
  win32 platform = true →
  WIN32_CRED_MAX_STRING_LENGTH < String.length value →
  setCredentialsHelper platform fuel service account value v = Ret tt v' →
  String.length value < fuel' →
  ∃ n, n ≤ String.length value ∧
    (n < String.length value →
       String.get n value = Some NUL ∧ ∃ k, S n = k * WIN32_CRED_MAX_STRING_LENGTH) ∧
    getCredentialsHelper platform fuel' service account v' =
      Ret (Some (slice_to n value)) v'.
Proof.
  intros Hwin Hlong Hset Hfuel.
  apply setCredentialsHelper_long in Hset as [Hset Hsingle]; [| done | done].
  destruct (get_chunks_after_set_chunks fuel fuel' service account
              (value +:+ String NUL "") 1 None _ v' Hset)
    as (n & Hn & Hmult & Hend & Hget).
  { by destruct value. }
  { by rewrite endsWith_app. }
  { rewrite length_append. simpl. lia. }
  rewrite length_append in Hn, Hmult. simpl in Hn, Hmult.
  destruct n as [|n]; [lia |]. exists n. split; [lia |].
  assert (String.length (slice_to (S n) (value +:+ String NUL "")) = S n) as Hlen.
  { rewrite length_slice_to, length_append.
    change (String.length (String NUL "")) with 1. lia. }
  split.
  - intros Hcut. split.
    + apply endsWith_get in Hend. rewrite Hlen in Hend.
      rewrite get_slice_to in Hend by lia.
      replace (S n - 1) with n in Hend by lia.
      by rewrite <- String.append_correct1 in Hend.
    + destruct Hmult as [? | [k ?]]; [lia | by exists k].
  - rewrite getCredentialsHelper_run, Hsingle, Hwin, Hget.
    cbn [fmap option_fmap option_map default]. rewrite append_nil.
    do 2 f_equal. unfold strip_trailing_nul. rewrite Hend.
    unfold drop_last. rewrite Hlen.
    replace (S n - 1) with n by lia.
    replace (S n) with (n + 1) by lia.
    rewrite slice_to_slice_to. apply slice_to_app_prefix. lia.
Qed.

(** X2. On Windows, after [saveCredentials] of a value longer than 2560
    characters, [loadCredentials] of the account always finishes and returns a
    prefix of the value; the prefix is shorter than the value only where the
    value has a NUL character as the last character of a 2560-character
    slice, so a value without NUL characters is always returned whole. *)
Theorem long_value_loads_prefix (svc dn account value : string) (v : Vault)
    (fuel : nat) (optional : option bool) :
  let m := initialize (constructor svc dn) Imported in
  WIN32_CRED_MAX_STRING_LENGTH < String.length value →
  size v + String.length value + 1 < fuel →
  ∃ v' n, saveCredentials "win32" fuel m account value v = Ret tt v' ∧
    n ≤ String.length value ∧
    (n < String.length value →
       String.get n value = Some NUL ∧ ∃ k, S n = k * WIN32_CRED_MAX_STRING_LENGTH) ∧
    loadCredentials "win32" fuel m account optional v' = Ret (Some (slice_to n value)) v'.
Proof.
  intros m Hlong Hfuel.
  destruct (deleteCredentialsHelper_returns "win32" fuel m account (Some true) v)
    as (b & v1 & Hdelete & _); [intros _; lia |].
  destruct (setCredentialsHelper_terminates "win32" fuel svc account value v1)
    as [v' Hset]; [lia |].
  destruct (getCredentialsHelper_after_long "win32" fuel fuel svc account value v1 v')
    as (n & Hn & Hcut & Hget); [done | done | done | lia |].
  exists v', n.
  rewrite saveCredentials_run, Hdelete by done.
  split; [done |]. split; [done |]. split; [done |].
  rewrite loadCredentials_run by done.
  destruct (constructor_services svc dn Imported) as (rest & Hservices & _).
  fold m in Hservices. rewrite Hservices. cbn [load_services].
  unfold mbind, M_bind. by rewrite loadHelper_run, Hget.
Qed.

Lemma long_value_loads_prefix_witness :
  ∃ v' n, saveCredentials "win32" 2570 (initialize (constructor "Zowe" "") Imported)
            "acct" (repeat_char 2559 "a" +:+ String NUL "b") ∅ = Ret tt v' ∧
    n ≤ String.length (repeat_char 2559 "a" +:+ String NUL "b") ∧
    (n < String.length (repeat_char 2559 "a" +:+ String NUL "b") →
       String.get n (repeat_char 2559 "a" +:+ String NUL "b") = Some NUL ∧
       ∃ k, S n = k * WIN32_CRED_MAX_STRING_LENGTH) ∧
    loadCredentials "win32" 2570 (initialize (constructor "Zowe" "") Imported)
      "acct" None v' =
      Ret (Some (slice_to n (repeat_char 2559 "a" +:+ String NUL "b"))) v'.
Proof.
  apply (long_value_loads_prefix "Zowe" "" "acct"
           (repeat_char 2559 "a" +:+ String NUL "b") ∅ 2570 None).
  - vm_compute. lia.
  - rewrite map_size_empty. vm_compute. lia.
Defined.

(** X3. On Windows, for the manager of the built-in service and a vault whose
    numbered entries of the account have no gap, [saveCredentials] leaves
    exactly the numbered entries of the new value: none for a value of at
    most 2560 characters, and the entries 1 to [n] for a longer value, [n]
    being the number of slices of the value with its terminator. No entry of
    an earlier, longer value is left behind, and the numbering has no gap
    afterwards. *)
Theorem save_leaves_exact_chunks (dn account value : string) (v : Vault) (fuel : nat) :
  let m := initialize (constructor SVC_NAME dn) Imported in
  gap_free v account →
  size v + String.length value + 1 < fuel →
  ∃ v', saveCredentials "win32" fuel m account value v = Ret tt v' ∧
    (∀ i, is_Some (v' !! (SVC_NAME, chunk_account account (S i))) ↔
          WIN32_CRED_MAX_STRING_LENGTH < String.length value ∧
          i * WIN32_CRED_MAX_STRING_LENGTH ≤ String.length value) ∧
    gap_free v' account.
Proof.
  intros m Hgap Hfuel.
  destruct (deleteCredentialsHelper_spec "win32" fuel m account (Some true) v)
    as (b & v1 & Hdelete & Hsub & _ & Hchunks & _); [lia |].
  destruct (Hchunks win32_win32) as [_ Hrun].
  assert (∀ j, 1 ≤ j → v1 !! (SVC_NAME, chunk_account account j) = None) as Hnone.
  { intros j Hj.
    destruct (v !! (SVC_NAME, chunk_account account j)) as [x|] eqn:Hx.
    - apply Hrun; [done |]. apply gap_free_run; [done | by rewrite Hx].
    - by eapply lookup_weaken_None. }
  destruct (setCredentialsHelper_terminates "win32" fuel SVC_NAME account value v1)
    as [v' Hset]; [lia |].
  assert (∀ i, is_Some (v' !! (SVC_NAME, chunk_account account (S i))) ↔
               WIN32_CRED_MAX_STRING_LENGTH < String.length value ∧
               i * WIN32_CRED_MAX_STRING_LENGTH ≤ String.length value) as Hexact.
  { intros i.
    destruct (decide (WIN32_CRED_MAX_STRING_LENGTH < String.length value))
      as [Hlong | Hshort].
    - apply setCredentialsHelper_long in Hset as [Hset _]; [| done | done].
      destruct (decide (i * WIN32_CRED_MAX_STRING_LENGTH ≤ String.length value))
        as [Hin | Hout].
      + pose proof (set_chunks_entries _ _ _ _ _ _ _ i Hset) as Hentry.
        rewrite length_append in Hentry.
        change (String.length (String NUL "")) with 1 in Hentry.
        change (1 + i) with (S i) in Hentry.
        rewrite Hentry by lia. split; [done | eauto].
      + pose proof (set_chunks_beyond _ _ _ _ _ _ _ i Hset) as Hentry.
        rewrite length_append in Hentry.
        change (String.length (String NUL "")) with 1 in Hentry.
        change (1 + i) with (S i) in Hentry.
        rewrite Hentry by lia.
        rewrite lookup_delete_ne
          by (intros [= Heq]; symmetry in Heq; by apply chunk_account_ne in Heq).
        rewrite Hnone by lia. split; [by intros [? ?] | lia].
    - rewrite setCredentialsHelper_short in Hset.
      + injection Hset as <-.
        rewrite lookup_insert_ne
          by (intros [= Heq]; symmetry in Heq; by apply chunk_account_ne in Heq).
        rewrite Hnone by lia. split; [by intros [? ?] | lia].
      + apply andb_false_intro2. apply Nat.ltb_ge. lia. }
  exists v'. rewrite saveCredentials_run, Hdelete by done.
  split; [done |]. split; [done |].
  intros j Hj Hnext. destruct j as [|j]; [lia |].
  apply Hexact. apply Hexact in Hnext. lia.
Qed.

Lemma save_leaves_exact_chunks_witness :
  let v : Vault :=
    <[("Zowe", "acct-1") := "abc"]> {[ ("Zowe", "acct-2") := String "d" (String NUL "") ]} in
  ∃ v', saveCredentials "win32" 12 (initialize (constructor SVC_NAME "") Imported)
          "acct" "secret" v = Ret tt v' ∧
    (∀ i, is_Some (v' !! (SVC_NAME, chunk_account "acct" (S i))) ↔
          WIN32_CRED_MAX_STRING_LENGTH < String.length "secret" ∧
          i * WIN32_CRED_MAX_STRING_LENGTH ≤ String.length "secret") ∧
    gap_free v' "acct".
Proof.
  intros v.
  apply (save_leaves_exact_chunks "" "acct" "secret" v 12).
  - intros j Hj Hnext.
    destruct j as [|[|j]]; [lia | by eexists |].
    destruct Hnext as [x Hx]. exfalso.
    unfold v in Hx. rewrite lookup_insert_ne, lookup_singleton_ne in Hx; [done | |].
    + intros Heq.
      pose proof (chunk_account_inj "acct" 2 (S (S (S j))) (f_equal snd Heq)). lia.
    + intros Heq.
      pose proof (chunk_account_inj "acct" 1 (S (S (S j))) (f_equal snd Heq)). lia.
  - vm_compute. lia.
Defined.

(** X4. [deleteCredentials] removes exactly this: the entry of the account
    under every service of [allServices] and, on Windows, the unbroken run of
    numbered entries under the built-in service that starts at number one.
    Every other entry of the vault, among them a numbered entry that follows
    a missing number, is left as it was. *)
Theorem delete_removes_exactly (platform account : string) (m : t) (v : Vault)
    (fuel n : nat) :
  keytar m = true →
  1 ≤ n →
  (∀ j, 1 ≤ j < n → is_Some (v !! (SVC_NAME, chunk_account account j))) →
  v !! (SVC_NAME, chunk_account account n) = None →
  size v < fuel →
  ∃ v', deleteCredentials platform fuel m account v = Ret tt v' ∧
    (∀ s, s ∈ allServices m → v' !! (s, account) = None) ∧
    (win32 platform = true →
       ∀ j, 1 ≤ j < n → v' !! (SVC_NAME, chunk_account account j) = None) ∧
    (∀ k, (∀ s, s ∈ allServices m → k ≠ (s, account)) →
          (win32 platform = true →
             ∀ j, 1 ≤ j < n → k ≠ (SVC_NAME, chunk_account account j)) →
          v' !! k = v !! k).
Proof.
  intros Hkeytar Hn Hrun Hstop Hfuel.
  destruct (deleteCredentialsHelper_exact platform fuel m account None v n)
    as (b & v' & Hdelete & Hgone & Hchunks & Hother); [done .. |].
  exists v'. rewrite deleteCredentials_run, Hdelete by done.
  split; [done |]. split; [| done].
  intros s Hs. by apply Hgone.
Qed.

Lemma delete_removes_exactly_witness :
  let m := initialize (constructor SVC_NAME "") Imported in
  let v : Vault :=
    <[("Zowe", "acct-1") := "abc"]> {[ ("Zowe", "acct-3") := String "d" (String NUL "") ]} in
  ∃ v', deleteCredentials "win32" 3 m "acct" v = Ret tt v' ∧
    v' !! ("Zowe", "acct-1") = None ∧
    v' !! ("Zowe", "acct-3") = Some (String "d" (String NUL "")).
Proof.
  intros m v.
  destruct (delete_removes_exactly "win32" "acct" m v 3 2) as (v' & Hrun & _ & Hgone & Hother).
  - reflexivity.
  - lia.
  - intros j Hj. replace j with 1 by lia. by eexists.
  - reflexivity.
  - vm_compute. lia.
  - exists v'. split; [done |]. split.
    + apply (Hgone eq_refl 1). lia.
    + rewrite (Hother ("Zowe", "acct-3")); [reflexivity | |].
      * intros s _ Heq. discriminate Heq.
      * intros _ j Hj. replace j with 1 by lia. done.
Defined.

(** X5. A second [deleteCredentials] of the same account changes nothing:
    after the first one the deletion pass finds no entry, answers [false] and
    leaves the vault as it is. *)
Theorem delete_twice_is_delete_once (platform account : string) (m : t) (v : Vault)
    (fuel : nat) :
  keytar m = true →
  size v < fuel →
  ∃ v', deleteCredentials platform fuel m account v = Ret tt v' ∧
    deleteCredentialsHelper platform fuel m account None v' = Ret false v' ∧
    deleteCredentials platform fuel m account v' = Ret tt v'.
Proof.
  intros Hkeytar Hfuel.
  destruct (deleteCredentialsHelper_returns platform fuel m account None v)
    as (b & v' & Hdelete & _ & Hgone & Hchunk); [done |].
  assert (deleteCredentialsHelper platform fuel m account None v' = Ret false v')
    as Hagain.
  { apply deleteCredentialsHelper_absent; [done |].
    intros Hwin. split; [lia | by apply Hchunk]. }
  exists v'. by rewrite !deleteCredentials_run, Hdelete, Hagain.
Qed.

Lemma delete_twice_is_delete_once_witness :
  let m := initialize (constructor SVC_NAME "") Imported in
  let v : Vault := <[("Zowe", "acct") := "abc"]> {[ ("@zowe/cli", "acct") := "old" ]} in
  ∃ v', deleteCredentials "linux" 3 m "acct" v = Ret tt v' ∧
    deleteCredentialsHelper "linux" 3 m "acct" None v' = Ret false v' ∧
    deleteCredentials "linux" 3 m "acct" v' = Ret tt v'.
Proof.
  intros m v. apply (delete_twice_is_delete_once "linux" "acct" m v 3).
  - reflexivity.
  - vm_compute. lia.
Defined.

(** X6. The answer of [deleteCredentialsHelper] tells whether the vault was
    changed: it is [true] exactly when some entry was removed, and the pass
    only ever removes entries. *)
Theorem delete_answer_reports_change (platform : string) (fuel : nat) (m : t)
    (account : string) (keepCurrentSvc : option bool) (b : bool) (v v' : Vault) :
  deleteCredentialsHelper platform fuel m account keepCurrentSvc v = Ret b v' →
  v' ⊆ v ∧ (b = true ↔ v' ≠ v).
Proof.
  unfold deleteCredentialsHelper, mbind, M_bind.
  destruct (delete_services (allServices m) account keepCurrentSvc false v)
    as [b1 v1| |] eqn:Hservices; try done.
  apply delete_services_run in Hservices as [Hsub1 Hb1].
  destruct (win32 platform).
  - destruct (delete_chunks fuel account 1 v1) as [n v2| |] eqn:Hchunks; try done.
    apply delete_chunks_run in Hchunks as (Hsub2 & Hle & Hn).
    intros [= <- <-]. split; [by etrans |].
    assert (v2 ≠ v ↔ v1 ≠ v ∨ v2 ≠ v1) as ->.
    { split.
      - intros Hne. destruct (decide (v1 = v)) as [-> | ?]; [by right | by left].
      - intros [Hne | Hne] ->.
        + apply Hne. by apply (anti_symm (⊆)).
        + apply Hne. by apply (anti_symm (⊆)). }
    rewrite <- Hn. destruct (Nat.ltb_spec 1 n).
    + split; [by right | done].
    + rewrite Hb1. split; [intros [? | ?]; [done | by left] |].
      intros [? | ?]; [by right | lia].
  - intros [= <- <-]. split; [done |]. rewrite Hb1.
    split; [by intros [? | ?] | by right].
Qed.

Lemma delete_answer_reports_change_witness :
  let m := initialize (constructor SVC_NAME "") Imported in
  let v : Vault := {[ ("Zowe", "acct-1") := String "d" (String NUL "") ]} in
  (∅ : Vault) ⊆ v ∧ (true = true ↔ (∅ : Vault) ≠ v).
Proof.
  intros m v.
  apply (delete_answer_reports_change "win32" 2 m "acct" None true v ∅).
  reflexivity.
Defined.

(** X7. [loadCredentials] never writes to the vault: whenever it finishes,
    with a value, with null or with an error, the vault is the one it was
    given. *)
Theorem load_never_writes (platform : string) (fuel : nat) (m : t)
    (account : string) (optional : option bool) (v : Vault) :
  loadCredentials platform fuel m account optional v = Diverge ∨
  (∃ r, loadCredentials platform fuel m account optional v = Ret r v) ∨
  (∃ e, loadCredentials platform fuel m account optional v = Throw e v).
Proof.
  unfold loadCredentials, checkForKeytar, mbind, M_bind.
  destruct (keytar m).
  - cbn [mret M_ret].
    destruct (load_services_outcome platform fuel account (allServices m) None v)
      as [-> | [r ->]]; [by left |].
    destruct (is_null r && negb (default false optional)).
    + right. right. by eexists.
    + right. left. by eexists.
  - right. right. destruct (loadError m); by eexists.
Qed.

(** X8. On a platform other than Windows no loop over numbered entries is
    run: with keytar bound, [saveCredentials] stores the value in the single
    entry of the manager's service and [deleteCredentials] returns, whatever
    the fuel, and [loadCredentials] finishes with a result that does not
    depend on the fuel. *)
Theorem no_chunk_loops_outside_windows (platform account value : string) (m : t)
    (optional : option bool) (v : Vault) (fuel : nat) :
  win32 platform = false →
  keytar m = true →
  (∃ v', saveCredentials platform fuel m account value v = Ret tt v' ∧
         v' !! (service m, account) = Some value) ∧
  (∃ v', deleteCredentials platform fuel m account v = Ret tt v') ∧
  loadCredentials platform fuel m account optional v ≠ Diverge ∧
  loadCredentials platform fuel m account optional v =
    loadCredentials platform 0 m account optional v.
Proof.
  intros Hwin Hkeytar. split; [| split; [| split]].
  - destruct (deleteCredentialsHelper_not_win32 platform fuel m account (Some true) v)
      as (b & v1 & Hdelete & _); [done |].
    exists (<[(service m, account) := value]> v1).
    rewrite saveCredentials_run, Hdelete by done.
    rewrite setCredentialsHelper_short by by rewrite Hwin.
    split; [done | by rewrite lookup_insert_eq].
  - destruct (deleteCredentialsHelper_not_win32 platform fuel m account None v)
      as (b & v1 & Hdelete & _); [done |].
    exists v1. by rewrite deleteCredentials_run, Hdelete.
  - rewrite loadCredentials_run by done.
    destruct (load_services_returns_not_win32 platform fuel account
                (allServices m) None v Hwin) as [r ->].
    destruct r; [done |]. by destruct (default false optional).
  - rewrite !loadCredentials_run by done.
    by rewrite (load_services_not_win32 platform fuel 0).
Qed.

Lemma no_chunk_loops_outside_windows_witness :
  let m := initialize (constructor SVC_NAME "") Imported in
  let v : Vault := {[ ("Zowe", "acct-1") := "never terminated" ]} in
  (∃ v', saveCredentials "darwin" 5 m "acct" "secret" v = Ret tt v' ∧
         v' !! (service m, "acct") = Some "secret") ∧
  (∃ v', deleteCredentials "darwin" 5 m "acct" v = Ret tt v') ∧
  loadCredentials "darwin" 5 m "acct" (Some true) v ≠ Diverge ∧
  loadCredentials "darwin" 5 m "acct" (Some true) v =
    loadCredentials "darwin" 0 m "acct" (Some true) v.
Proof.
  intros m v.
  apply (no_chunk_loops_outside_windows "darwin" "acct" "secret" m (Some true) v 5);
    reflexivity.
Defined.

(** X9. Neither [saveCredentials] nor [deleteCredentials] touches the entry
    under the legacy name of the account ([_user] for [_username],
    [_password] for [_pass]), under any service: the legacy names are only
    ever read. *)
Theorem legacy_entries_are_only_read (platform : string) (fuel : nat) (m : t)
    (account value s : string) (v v' : Vault) :
  saveCredentials platform fuel m account value v = Ret tt v' ∨
  deleteCredentials platform fuel m account v = Ret tt v' →
  (endsWith account "_username" = true →
     v' !! (s, replace account "_username" "_user") =
       v !! (s, replace account "_username" "_user")) ∧
  (endsWith account "_pass" = true →
     v' !! (s, replace account "_pass" "_password") =
       v !! (s, replace account "_pass" "_password")).
Proof.
  assert (∀ a, a ≠ account → (∀ j, a ≠ chunk_account account j) →
               deleteCredentials platform fuel m account v = Ret tt v' →
               v' !! (s, a) = v !! (s, a)) as Hdelete.
  { intros a Ha Hchunk. unfold deleteCredentials, checkForKeytar, mbind, M_bind.
    destruct (keytar m); [| by destruct (loadError m)].
    cbn [mret M_ret].
    destruct (deleteCredentialsHelper platform fuel m account None v)
      as [b v1| |] eqn:Hhelper; try done.
    intros [= <-]. apply (deleteCredentialsHelper_touches _ _ _ _ _ _ _ _ _ Hhelper).
    - intros s' _ [= _ ?]. done.
    - intros _ j _ [= _ ?]. by apply (Hchunk j). }
  intros Hrun. split; intros Hends.
  - pose proof (legacy_user_ne_account account Hends) as Hne.
    pose proof (λ j, legacy_user_ne_chunk account j Hends) as Hchunk.
    destruct Hrun as [Hsave | Hdel]; [| by apply Hdelete].
    by apply (CredentialTheorems.saveCredentials_touches_account_only
                _ _ _ _ _ _ _ _ _ Hsave).
  - pose proof (legacy_password_ne_account account Hends) as Hne.
    pose proof (λ j, legacy_password_ne_chunk account j Hends) as Hchunk.
    destruct Hrun as [Hsave | Hdel]; [| by apply Hdelete].
    by apply (CredentialTheorems.saveCredentials_touches_account_only
                _ _ _ _ _ _ _ _ _ Hsave).
Qed.

Lemma legacy_entries_are_only_read_witness :
  let m := initialize (constructor SVC_NAME "") Imported in
  let v : Vault := {[ ("Zowe", "zosmf_pass100_password") := "old" ]} in
  ∃ v', saveCredentials "win32" 3 m "zosmf_pass100_pass" "new" v = Ret tt v' ∧
    v' !! ("Zowe", "zosmf_password100_pass") = v !! ("Zowe", "zosmf_password100_pass").
Proof.
  intros m v. eexists. split; [reflexivity |].
  apply (legacy_entries_are_only_read "win32" 3 m "zosmf_pass100_pass" "new" "Zowe" v).
  - left. reflexivity.
  - reflexivity.
Defined.

(** X10. A value stored under the legacy name outlives [deleteCredentials]:
    for an account that ends in [_username] and has an entry under the name
    [loadHelper] retries, the deletion removes the account's own entries but
    [loadCredentials] still returns the legacy value afterwards. *)
Theorem legacy_value_outlives_delete (platform dn account x : string)
    (optional : option bool) (v : Vault) (fuel : nat) :
  let m := initialize (constructor SVC_NAME dn) Imported in
  endsWith account "_username" = true →
  v !! (SVC_NAME, replace account "_username" "_user") = Some x →
  size v < fuel →
  ∃ v', deleteCredentials platform fuel m account v = Ret tt v' ∧
    (∀ s, s ∈ allServices m → v' !! (s, account) = None) ∧
    loadCredentials platform fuel m account optional v' = Ret (Some x) v'.
Proof.
  intros m Hends Hlegacy Hfuel.
  destruct (deleteCredentialsHelper_returns platform fuel m account None v)
    as (b & v' & Hdelete & _ & Hgone & Hchunk); [done |].
  exists v'. rewrite deleteCredentials_run, Hdelete by done.
  split; [done |]. split; [intros s Hs; by apply Hgone |].
  assert (v' !! (SVC_NAME, replace account "_username" "_user") = Some x) as Hkept.
  { rewrite <- Hlegacy.
    apply (deleteCredentialsHelper_touches _ _ _ _ _ _ _ _ _ Hdelete).
    - intros s _ [= _ Heq]. by apply legacy_user_ne_account in Heq.
    - intros _ j _ [= Heq]. by apply legacy_user_ne_chunk in Heq. }
  rewrite loadCredentials_run by done.
  change (allServices m) with ([] ++ SVC_NAME :: ["@zowe/cli"; "Zowe-Plugin"; "Broadcom-Plugin"]).
  rewrite (load_services_first_hit platform fuel account [] _ SVC_NAME x); [done | |].
  - intros s Hs. by apply elem_of_nil in Hs.
  - apply CredentialTheorems.loadHelper_retries_username; [| done | done].
    apply getCredentialsHelper_null; [lia |]. split; [| done].
    apply Hgone; [| done]. by left.
Qed.

Lemma legacy_value_outlives_delete_witness :
  let m := initialize (constructor SVC_NAME "") Imported in
  let v : Vault :=
    <[("Zowe", "zosmf_username") := "new"]> {[ ("Zowe", "zosmf_user") := "old" ]} in
  ∃ v', deleteCredentials "linux" 3 m "zosmf_username" v = Ret tt v' ∧
    (∀ s, s ∈ allServices m → v' !! (s, "zosmf_username") = None) ∧
    loadCredentials "linux" 3 m "zosmf_username" None v' = Ret (Some "old") v'.
Proof.
  intros m v.
  apply (legacy_value_outlives_delete "linux" "" "zosmf_username" "old" None v 3).
  - reflexivity.
  - reflexivity.
  - vm_compute. lia.
Defined.

(** X11. On Windows no entry that [saveCredentials] creates or changes is
    longer than 2560 characters, whatever the length of the value. *)
Theorem saved_entries_fit_the_limit (account value s a x : string) (m : t)
    (v v' : Vault) (fuel : nat) :
  saveCredentials "win32" fuel m account value v = Ret tt v' →
  v' !! (s, a) = Some x →
  v' !! (s, a) ≠ v !! (s, a) →
  String.length x ≤ WIN32_CRED_MAX_STRING_LENGTH.
Proof.
  unfold saveCredentials, checkForKeytar, mbind, M_bind.
  destruct (keytar m); [| by destruct (loadError m)].
  cbn [mret M_ret].
  destruct (deleteCredentialsHelper "win32" fuel m account (Some true) v)
    as [b v1| |] eqn:Hdelete; try done.
  apply deleteCredentialsHelper_subseteq in Hdelete.
  intros Hset Hx Hchanged.
  destruct (decide (WIN32_CRED_MAX_STRING_LENGTH < String.length value))
    as [Hlong | Hshort].
  - apply setCredentialsHelper_long in Hset as [Hset _]; [| done | done].
    destruct (decide (v' !! (s, a) = delete (service m, account) v1 !! (s, a)))
      as [Heq | Hne].
    + exfalso. apply Hchanged. rewrite Hx. symmetry.
      rewrite Heq in Hx. eapply lookup_weaken; [| done].
      eapply lookup_weaken; [done | apply delete_subseteq].
    + by apply (set_chunks_bounded _ _ _ _ _ _ _ _ _ Hset Hx).
  - rewrite setCredentialsHelper_short in Hset
      by (apply andb_false_intro2, Nat.ltb_ge; lia).
    injection Hset as <-.
    destruct (decide ((s, a) = (service m, account))) as [Heq | Hne].
    + rewrite Heq, lookup_insert_eq in Hx. injection Hx as <-. lia.
    + rewrite lookup_insert_ne in Hx by done.
      exfalso. apply Hchanged. rewrite lookup_insert_ne by done.
      rewrite Hx. symmetry. by eapply lookup_weaken.
Qed.

Lemma saved_entries_fit_the_limit_witness :
  String.length (repeat_char 2560 "a") ≤ WIN32_CRED_MAX_STRING_LENGTH.
Proof.
  apply (saved_entries_fit_the_limit "acct" (repeat_char 2561 "a") "Zowe" "acct-1"
           (repeat_char 2560 "a") (initialize (constructor SVC_NAME "") Imported) ∅
           (<[("Zowe", "acct-1") := repeat_char 2560 "a"]>
              {[ ("Zowe", "acct-2") := String "a" (String NUL "") ]}) 2600).
  - vm_compute. reflexivity.
  - vm_compute. reflexivity.
  - vm_compute. discriminate.
Defined.

(** X12. The message of [getMissingEntryMessage] lists the services of
    [allServices] in order, separated by a comma and a space, with nothing
    after the last one, followed by the account: the two characters cut from
    the list are the separator written after the last service. *)
Theorem missing_entry_message_lists_services (m : t) (account : string) :
  allServices m ≠ [] →
  getMissingEntryMessage m account =
    "Could not find an entry in the credential vault for the following:" +:+ String LF ""
    +:+ ("  Service = " +:+ String.concat ", " (allServices m)
         +:+ String LF "  Account = " +:+ account +:+ String LF (String LF ""))
    +:+ "Possible Causes:" +:+ String LF ""
    +:+ "  This could have been caused by any manual removal of credentials from your vault."
    +:+ String LF (String LF "")
    +:+ "Resolutions: " +:+ String LF ""
    +:+ "  Recreate the credentials in the vault for the particular service in the vault."
    +:+ String LF "".
Proof.
  intros Hservices. unfold getMissingEntryMessage.
  destruct (allServices m) as [|s services]; [done |].
  cbv zeta. rewrite join_services_concat. by rewrite !append_assoc.
Qed.

Lemma missing_entry_message_lists_services_witness :
  getMissingEntryMessage (constructor SVC_NAME "") "acct" =
    "Could not find an entry in the credential vault for the following:" +:+ String LF ""
    +:+ ("  Service = " +:+ "Zowe, @zowe/cli, Zowe-Plugin, Broadcom-Plugin"
         +:+ String LF "  Account = " +:+ "acct" +:+ String LF (String LF ""))
    +:+ "Possible Causes:" +:+ String LF ""
    +:+ "  This could have been caused by any manual removal of credentials from your vault."
    +:+ String LF (String LF "")
    +:+ "Resolutions: " +:+ String LF ""
    +:+ "  Recreate the credentials in the vault for the particular service in the vault."
    +:+ String LF "".
Proof.
  apply (missing_entry_message_lists_services (constructor SVC_NAME "") "acct").
  discriminate.
Defined.

(** X13. While keytar is not bound, [loadCredentials], [saveCredentials] and
    [deleteCredentials] all throw before any call to keytar and leave the
    vault as it is: the recorded load error when there is one, and otherwise
    the unknown-cause error, which has its report suppressed and no cause. *)
Theorem unbound_keytar_blocks_every_operation (platform account value : string)
    (m : t) (optional : option bool) (v : Vault) (fuel : nat) :
  keytar m = false →
  loadCredentials platform fuel m account optional v
    = Throw (default unknown_cause_error (loadError m)) v ∧
  saveCredentials platform fuel m account value v
    = Throw (default unknown_cause_error (loadError m)) v ∧
  deleteCredentials platform fuel m account v
    = Throw (default unknown_cause_error (loadError m)) v ∧
  (loadError m = None →
     suppressReport (default unknown_cause_error (loadError m)) = true ∧
     causeErrors (default unknown_cause_error (loadError m)) = None).
Proof.
  intros Hkeytar.
  unfold loadCredentials, saveCredentials, deleteCredentials, checkForKeytar,
    mbind, M_bind.
  rewrite Hkeytar. destruct (loadError m); [| done].
  repeat split; done.
Qed.

Lemma unbound_keytar_blocks_every_operation_witness :
  let m := constructor "Zowe" "Zowe Built-in Credential Manager" in
  let v : Vault := {[ ("Zowe", "acct") := "secret" ]} in
  loadCredentials "linux" 1 m "acct" None v = Throw unknown_cause_error v ∧
  saveCredentials "linux" 1 m "acct" "other" v = Throw unknown_cause_error v ∧
  deleteCredentials "linux" 1 m "acct" v = Throw unknown_cause_error v.
Proof.
  intros m v.
  destruct (unbound_keytar_blocks_every_operation "linux" "acct" "other" m None v 1)
    as (Hload & Hsave & Hdelete & _); [reflexivity |].
  by repeat split.
Defined.

(** X14. [deleteCredentials] undoes [saveCredentials]: for the manager of the
    built-in service, on any platform and for a value of any length, when the
    account has no value elsewhere (no first numbered entry under a
    historical service, no entry under a legacy name), a save followed by a
    delete leaves nothing to load: an optional load returns null and a
    required load throws the missing-entry error. *)
Theorem delete_undoes_save (platform dn account value : string) (v : Vault)
    (fuel : nat) :
  let m := initialize (constructor SVC_NAME dn) Imported in
  no_other_source v (allServices m) account →
  size v + String.length value + 1 < fuel →
  ∃ v' v'', saveCredentials platform fuel m account value v = Ret tt v' ∧
    deleteCredentials platform fuel m account v' = Ret tt v'' ∧
    loadCredentials platform fuel m account (Some true) v'' = Ret None v'' ∧
    loadCredentials platform fuel m account None v''
      = Throw (missing_entry_error m account) v''.
Proof.
  intros m Hclean Hfuel.
  destruct (deleteCredentialsHelper_returns platform fuel m account (Some true) v)
    as (b & v1 & Hdelete1 & Hsub1 & _); [intros _; lia |].
  destruct (setCredentialsHelper_terminates platform fuel SVC_NAME account value v1)
    as [v' Hset]; [lia |].
  assert (saveCredentials platform fuel m account value v = Ret tt v') as Hsave
    by by rewrite saveCredentials_run, Hdelete1.
  pose proof (saveCredentials_size _ _ _ _ _ _ _ Hsave) as Hsize.
  destruct (deleteCredentialsHelper_returns platform fuel m account None v')
    as (b' & v'' & Hdelete2 & Hsub2 & Hgone & Hchunk); [intros _; lia |].
  exists v', v''. split; [done |].
  split; [by rewrite deleteCredentials_run, Hdelete2 |].
  assert (∀ s, s ∈ allServices m → no_entry platform v'' s account) as Habsent.
  { intros s Hs. destruct (Hclean s Hs) as (Hother & Huser & Hpass).
    split; [by apply Hgone |]. split; [| split].
    - intros Hwin. destruct (decide (s = SVC_NAME)) as [-> | Hne]; [by apply Hchunk |].
      eapply lookup_weaken_None; [| done].
      rewrite (setCredentialsHelper_other_service _ _ _ _ _ _ _ _ _ Hset) by done.
      eapply lookup_weaken_None; [| done]. by apply Hother.
    - intros Hends. eapply lookup_weaken_None; [| done].
      rewrite (CredentialTheorems.saveCredentials_touches_account_only
                 _ _ _ _ _ _ _ _ _ Hsave); [by apply Huser | |].
      + by apply legacy_user_ne_account.
      + intros j. by apply legacy_user_ne_chunk.
    - intros Hends. eapply lookup_weaken_None; [| done].
      rewrite (CredentialTheorems.saveCredentials_touches_account_only
                 _ _ _ _ _ _ _ _ _ Hsave); [by apply Hpass | |].
      + by apply legacy_password_ne_account.
      + intros j. by apply legacy_password_ne_chunk. }
  assert (load_services platform fuel account (allServices m) None v'' = Ret None v'')
    as Hload.
  { apply load_services_null. intros s Hs. apply loadHelper_null; [lia |].
    by apply Habsent. }
  by rewrite !loadCredentials_run, Hload.
Qed.

Lemma delete_undoes_save_witness :
  let m := initialize (constructor SVC_NAME "") Imported in
  ∃ v' v'', saveCredentials "win32" 2600 m "acct" (repeat_char 2561 "a") ∅ = Ret tt v' ∧
    deleteCredentials "win32" 2600 m "acct" v' = Ret tt v'' ∧
    loadCredentials "win32" 2600 m "acct" (Some true) v'' = Ret None v'' ∧
    loadCredentials "win32" 2600 m "acct" None v''
      = Throw (missing_entry_error m "acct") v''.
Proof.
  intros m.
  apply (delete_undoes_save "win32" "" "acct" (repeat_char 2561 "a") ∅ 2600).
  - intros s _. by repeat split.
  - rewrite map_size_empty. vm_compute. lia.
Defined.

(** X15. With a service name of its own the manager writes the numbered
    entries of a long value under that service, while the deletion loop
    removes numbered entries under the built-in service only. On Windows a
    long value saved by such a manager therefore outlives
    [deleteCredentials]: the single entries are gone, and [loadCredentials]
    returns the same value as before the deletion. *)
Theorem custom_service_long_value_outlives_delete (svc dn account value : string)
    (optional : option bool) (v : Vault) (fuel : nat) :
  let m := initialize (constructor svc dn) Imported in
  svc ≠ SVC_NAME →
  WIN32_CRED_MAX_STRING_LENGTH < String.length value →
  size v + String.length value + 1 < fuel →
  ∃ v' v'' r, saveCredentials "win32" fuel m account value v = Ret tt v' ∧
    deleteCredentials "win32" fuel m account v' = Ret tt v'' ∧
    (∀ s, s ∈ allServices m → v'' !! (s, account) = None) ∧
    loadCredentials "win32" fuel m account optional v' = Ret (Some r) v' ∧
    loadCredentials "win32" fuel m account optional v'' = Ret (Some r) v''.
Proof.
  intros m Hsvc Hlong Hfuel.
  destruct (deleteCredentialsHelper_returns "win32" fuel m account (Some true) v)
    as (b & v1 & Hdelete1 & _); [intros _; lia |].
  destruct (setCredentialsHelper_terminates "win32" fuel svc account value v1)
    as [v' Hset]; [lia |].
  assert (saveCredentials "win32" fuel m account value v = Ret tt v') as Hsave
    by by rewrite saveCredentials_run, Hdelete1.
  pose proof (saveCredentials_size _ _ _ _ _ _ _ Hsave) as Hsize.
  destruct (getCredentialsHelper_after_long "win32" fuel fuel svc account value v1 v')
    as (n & _ & _ & Hget); [done | done | done | lia |].
  destruct (deleteCredentialsHelper_returns "win32" fuel m account None v')
    as (b' & v'' & Hdelete2 & _ & Hgone & _); [intros _; lia |].
  assert (getCredentialsHelper "win32" fuel svc account v''
          = Ret (Some (slice_to n value)) v'') as Hget'.
  { apply (getCredentialsHelper_ext _ _ _ _ _ v'); [| | done].
    - rewrite Hgone; [| by left | done]. symmetry.
      by destruct (setCredentialsHelper_long _ _ _ _ _ _ _ win32_win32 Hlong Hset).
    - intros j Hj. apply (deleteCredentialsHelper_touches _ _ _ _ _ _ _ _ _ Hdelete2).
      + intros s _ [= _ Heq]. by apply chunk_account_ne in Heq.
      + intros _ i _ [= ? _]. done. }
  exists v', v'', (slice_to n value). split; [done |].
  split; [by rewrite deleteCredentials_run, Hdelete2 |].
  split; [intros s Hs; by apply Hgone |].
  rewrite !loadCredentials_run by done.
  destruct (constructor_services svc dn Imported) as (rest & Hservices & _).
  fold m in Hservices. rewrite Hservices. cbn [load_services].
  unfold mbind, M_bind. by rewrite !loadHelper_run, Hget, Hget'.
Qed.

Lemma custom_service_long_value_outlives_delete_witness :
  let m := initialize (constructor "MyApp" "") Imported in
  ∃ v' v'' r, saveCredentials "win32" 2600 m "acct" (repeat_char 2561 "a") ∅ = Ret tt v' ∧
    deleteCredentials "win32" 2600 m "acct" v' = Ret tt v'' ∧
    (∀ s, s ∈ allServices m → v'' !! (s, "acct") = None) ∧
    loadCredentials "win32" 2600 m "acct" None v' = Ret (Some r) v' ∧
    loadCredentials "win32" 2600 m "acct" None v'' = Ret (Some r) v''.
Proof.
  intros m.
  apply (custom_service_long_value_outlives_delete "MyApp" "" "acct"
           (repeat_char 2561 "a") None ∅ 2600).
  - discriminate.
  - vm_compute. lia.
  - rewrite map_size_empty. vm_compute. lia.
Defined.

(** X16. Accounts are not isolated on Windows: the first numbered entry of
    the account [a] has the name of the account [a-1]. After
    [saveCredentials] of a value longer than 2560 characters under [a], a
    [loadCredentials] of the account [a-1] returns the first 2560 characters
    of that value. *)
Theorem numbered_names_collide_with_accounts (svc dn account value : string)
    (optional : option bool) (v : Vault) (fuel fuel' : nat) :
  let m := initialize (constructor svc dn) Imported in
  WIN32_CRED_MAX_STRING_LENGTH < String.length value →
  size v + String.length value + 1 < fuel →
  ∃ v', saveCredentials "win32" fuel m account value v = Ret tt v' ∧
    loadCredentials "win32" fuel' m (chunk_account account 1) optional v'
      = Ret (Some (slice_to WIN32_CRED_MAX_STRING_LENGTH value)) v'.
Proof.
  intros m Hlong Hfuel.
  destruct (deleteCredentialsHelper_returns "win32" fuel m account (Some true) v)
    as (b & v1 & Hdelete & _); [intros _; lia |].
  destruct (setCredentialsHelper_terminates "win32" fuel svc account value v1)
    as [v' Hset]; [lia |].
  exists v'. rewrite saveCredentials_run, Hdelete by done.
  split; [done |].
  destruct (setCredentialsHelper_long _ _ _ _ _ _ _ win32_win32 Hlong Hset)
    as [Hchunks _].
  pose proof (set_chunks_entries _ _ _ _ _ _ _ 0 Hchunks) as Hentry.
  rewrite length_append, Nat.mul_0_l in Hentry.
  change (1 + 0) with 1 in Hentry. cbn [slice_from] in Hentry.
  rewrite slice_to_app_prefix in Hentry by lia.
  rewrite loadCredentials_run by done.
  destruct (constructor_services svc dn Imported) as (rest & Hservices & _).
  fold m in Hservices. rewrite Hservices. cbn [load_services].
  unfold mbind, M_bind. rewrite loadHelper_run, getCredentialsHelper_run.
  rewrite Hentry by lia. done.
Qed.

Lemma numbered_names_collide_with_accounts_witness :
  let m := initialize (constructor "Zowe" "") Imported in
  ∃ v', saveCredentials "win32" 2600 m "acct" (repeat_char 2561 "a")
          {[ ("Zowe", "acct-1") := "mine" ]} = Ret tt v' ∧
    loadCredentials "win32" 1 m (chunk_account "acct" 1) None v'
      = Ret (Some (slice_to WIN32_CRED_MAX_STRING_LENGTH (repeat_char 2561 "a"))) v'.
Proof.
  intros m.
  apply (numbered_names_collide_with_accounts "Zowe" "" "acct" (repeat_char 2561 "a")
           None {[ ("Zowe", "acct-1") := "mine" ]} 2600 1).
  - vm_compute. lia.
  - rewrite map_size_singleton. vm_compute. lia.
Defined.

(** X17. The deletion pass of [saveCredentials] spares the entry of the
    built-in service, not that of the manager's own service. With a service
    name of its own, a save therefore leaves the account's entry under the
    built-in service as it was, while the value is written under the
    manager's service. *)
Theorem custom_service_save_keeps_builtin_entry (platform svc dn account value : string)
    (v v' : Vault) (fuel : nat) :
  let m := initialize (constructor svc dn) Imported in
  svc ≠ SVC_NAME →
  saveCredentials platform fuel m account value v = Ret tt v' →
  v' !! (SVC_NAME, account) = v !! (SVC_NAME, account) ∧
  (win32 platform && (WIN32_CRED_MAX_STRING_LENGTH <? String.length value) = false →
     v' !! (svc, account) = Some value).
Proof.
  intros m Hsvc. rewrite saveCredentials_run by done.
  destruct (deleteCredentialsHelper platform fuel m account (Some true) v)
    as [b v1| |] eqn:Hdelete; try done.
  intros Hset. split.
  - rewrite (setCredentialsHelper_other_service _ _ _ _ _ _ _ _ _ Hset) by done.
    by apply deleteCredentialsHelper_keeps in Hdelete.
  - intros Hshort. rewrite setCredentialsHelper_short in Hset by done.
    injection Hset as <-. apply lookup_insert_eq.
Qed.

Lemma custom_service_save_keeps_builtin_entry_witness :
  let m := initialize (constructor "MyApp" "") Imported in
  let v : Vault := {[ ("Zowe", "acct") := "old" ]} in
  let v' : Vault := <[("MyApp", "acct") := "new"]> v in
  v' !! (SVC_NAME, "acct") = v !! (SVC_NAME, "acct") ∧
  (win32 "linux" && (WIN32_CRED_MAX_STRING_LENGTH <? String.length "new") = false →
     v' !! ("MyApp", "acct") = Some "new").
Proof.
  intros m v v'.
  apply (custom_service_save_keeps_builtin_entry "linux" "MyApp" "" "acct" "new" v v' 1).
  - discriminate.
  - reflexivity.
Defined.

End CredentialExtras.
